(** * Constraint lattice propagation ([constraint_lattice_core.py])

    A shallow embedding of [ConstraintLattice]: the node mapping, the
    registered relations, the relation dependency graph, Tarjan's
    strongly-connected-component pass, the linearised direct solve
    (Step A) and the damped relaxation (Step B), followed by the
    properties the specification states about them.

    Modelling choices.
    - Python [float] is IEEE binary64: Rocq's primitive [float], whose
      operations are the same binary64 operations, rounded to nearest even.
    - A node value is [None], a float or a string; strings stand for the
      opaque (non numeric) values.  Python [int] and [bool] values, which
      are also [Number]s, are represented by the float of the same value.
    - [self.nodes] is a [gmap string value]; a set of relation indices is a
      duplicate-free ascending list (CPython walks a set of small
      non-negative ints in ascending order as long as they are smaller
      than the table, which has at least 8 slots); a [dict] whose key order
      is observed ([constraint_graph]) is an association list in insertion
      order.
    - An exception is a value of [exn]; code that mutates [self.nodes]
      returns the mapping at the point of the exception, since the caller
      owns the mapping and sees it as it was left.
    - Recursion and loops carry a bound ([fuel]); [None] means the bound
      was too small, and the termination lemmas show that the bounds
      [propagate] uses never are.  Python's own recursion limit is not
      modelled.
    - Two state signatures are compared with [==] on every value; the
      identity shortcut of CPython's tuple comparison, which only matters
      for a NaN that stays the same object, is not modelled.
    - numpy is not part of the repository: [matrix_rank], [lstsq] and the
      rounding of a numpy scalar are parameters ([Numpy]); [numpy_ref] is a
      reference instance, used where a concrete run is evaluated. *)

From Stdlib Require Import ZArith QArith Ascii.
From Stdlib Require Import PrimFloat SpecFloat FloatOps FloatAxioms.
From stdpp Require Import gmap strings list fin_maps sorting.

Local Open Scope Z_scope.

(** ** Floats *)

(** The binary64 number nearest to [n / d] (ties to even), with sign [s]. *)
Definition nearest_ratio (s : bool) (n d : positive) : float :=
  SF2Prim (SFdiv prec emax (S754_finite s n 0) (S754_finite false d 0)).

Definition signed_zero (s : bool) : float :=
  if s then (-0)%float else 0%float.

(** The integer nearest to [n / d], ties to even ([n >= 0], [d > 0]). *)
Definition div_half_even (n d : Z) : Z :=
  let (q, r) := Z.div_eucl n d in
  match Z.compare (2 * r) d with
  | Lt => q
  | Gt => q + 1
  | Eq => if Z.even q then q else q + 1
  end.

(** The integer nearest to [m * k * 2^e], ties to even. *)
Definition scaled_half_even (m : positive) (k e : Z) : Z :=
  if 0 <=? e then Z.pos m * k * 2 ^ e
  else div_half_even (Z.pos m * k) (2 ^ (- e)).

(** [round(x, 6)] on a Python float: the decimal with six places nearest
    to the exact value of [x] (ties to even), converted back to the nearest
    float; zeros, infinities and NaN are returned as they are. *)
Definition py_round6 (x : float) : float :=
  match Prim2SF x with
  | S754_finite s m e =>
      match scaled_half_even m 1000000 e with
      | Z.pos n => nearest_ratio s n 1000000
      | _ => signed_zero s
      end
  | _ => x
  end.

(** C's [rint]: the integer nearest to [x], ties to even. *)
Definition rint (x : float) : float :=
  match Prim2SF x with
  | S754_finite s m e =>
      match scaled_half_even m 1 e with
      | Z.pos n => nearest_ratio s n 1
      | _ => signed_zero s
      end
  | _ => x
  end.

(** ** Python's [float(str)] *)

Module PyFloat.

Definition is_space (c : ascii) : bool :=
  let n := nat_of_ascii c in
  ((9 <=? n) && (n <=? 13) || (n =? 32))%nat.

Definition digit (c : ascii) : option Z :=
  let n := nat_of_ascii c in
  if ((48 <=? n) && (n <=? 57))%nat then Some (Z.of_nat (n - 48)) else None.

Definition lower (c : ascii) : ascii :=
  let n := nat_of_ascii c in
  if ((65 <=? n) && (n <=? 90))%nat then ascii_of_nat (n + 32) else c.

Fixpoint lstrip (l : list ascii) : list ascii :=
  match l with
  | c :: l' => if is_space c then lstrip l' else l
  | [] => []
  end.

Definition strip (l : list ascii) : list ascii :=
  reverse (lstrip (reverse (lstrip l))).

Definition sign (l : list ascii) : bool * list ascii :=
  match l with
  | "-"%char :: l' => (true, l')
  | "+"%char :: l' => (false, l')
  | _ => (false, l)
  end.

(** [digit (["_"] digit)*], continuing a digit part whose value so far
    is [acc] over [cnt] digits; [first] holds before the first digit. *)
Fixpoint digitpart (first : bool) (acc : Z) (cnt : nat) (l : list ascii)
  : Z * nat * list ascii :=
  match l with
  | c :: l' =>
      match digit c with
      | Some d => digitpart false (10 * acc + d) (S cnt) l'
      | None =>
          match first, c, l' with
          | false, "_"%char, c' :: l'' =>
              match digit c' with
              | Some d => digitpart false (10 * acc + d) (S cnt) l''
              | None => (acc, cnt, l)
              end
          | _, _, _ => (acc, cnt, l)
          end
      end
  | [] => (acc, cnt, l)
  end.

(** [number]: the digits as one integer, the number of digits after the
    point, the number of digits in all, and the rest of the input. *)
Definition number (l : list ascii) : option (Z * nat * nat * list ascii) :=
  let '(i, ni, r) := digitpart true 0 0%nat l in
  match r with
  | "."%char :: r' =>
      let '(m, nf, r'') := digitpart true i 0%nat r' in
      if ((ni =? 0) && (nf =? 0))%nat then None
      else Some (m, nf, (ni + nf)%nat, r'')
  | _ => if (ni =? 0)%nat then None else Some (i, 0%nat, ni, r)
  end.

Definition exponent (l : list ascii) : option Z :=
  match l with
  | [] => Some 0
  | c :: l' =>
      if Ascii.eqb (lower c) "e"%char then
        let (neg, r) := sign l' in
        let '(v, n, r') := digitpart true 0 0%nat r in
        match n, r' with
        | S _, [] => Some (if neg then - v else v)
        | _, _ => None
        end
      else None
  end.

(** [m * 10^t] as the nearest float; outside [-400 - nd .. 400] the
    result is already an infinity or a zero. *)
Definition decimal (s : bool) (m : Z) (nd : nat) (t : Z) : float :=
  match m with
  | Z.pos p =>
      if 400 <? t then (if s then neg_infinity else infinity)
      else if t <? - (400 + Z.of_nat nd) then signed_zero s
      else if 0 <=? t then
        match (Z.pos p * 10 ^ t)%Z with
        | Z.pos n => nearest_ratio s n 1
        | _ => signed_zero s
        end
      else
        match (10 ^ (- t))%Z with
        | Z.pos d => nearest_ratio s p d
        | _ => signed_zero s
        end
  | _ => signed_zero s
  end.

Definition parse (str : string) : option float :=
  let (neg, l) := sign (strip (String.list_ascii_of_string str)) in
  let low := String.string_of_list_ascii (map lower l) in
  if String.eqb low "inf" || String.eqb low "infinity"
  then Some (if neg then neg_infinity else infinity)
  else if String.eqb low "nan" then Some nan
  else
    match number l with
    | Some (m, nf, nd, r) =>
        match exponent r with
        | Some e => Some (decimal neg m nd (e - Z.of_nat nf))
        | None => None
        end
    | None => None
    end.

End PyFloat.

(** ** Values, exceptions, relations *)

(** A node value: [None] (unset), a number, or an opaque string. *)
Inductive value : Type :=
  | VNone
  | VNum (x : float)
  | VStr (s : string).

Inductive exn : Type :=
  | KeyError (key : string)
  | KeyErrorInt (key : nat)
  | TypeError
  | ValueError
  | IndexError
  | RelationError (msg : string).

Inductive result (A : Type) : Type :=
  | Ok (a : A)
  | Raise (e : exn).
Arguments Ok {A} a.
Arguments Raise {A} e.

#[global] Instance result_ret : MRet result := λ A a, Ok a.
#[global] Instance result_bind : MBind result := λ A B f m,
  match m with
  | Ok a => f a
  | Raise e => Raise e
  end.
#[global] Instance result_fmap : FMap result := λ A B f m,
  match m with
  | Ok a => Ok (f a)
  | Raise e => Raise e
  end.

(** [isinstance(v, Number)] *)
Definition is_number (v : value) : bool :=
  match v with
  | VNum _ => true
  | _ => false
  end.

(** Python's [==] on values; [!=] is its negation. *)
Definition value_eqb (v w : value) : bool :=
  match v, w with
  | VNone, VNone => true
  | VNum x, VNum y => PrimFloat.eqb x y
  | VStr s, VStr t => String.eqb s t
  | _, _ => false
  end.

(** [float(v)] *)
Definition py_float (v : value) : result float :=
  match v with
  | VNum x => Ok x
  | VNone => Raise TypeError
  | VStr s =>
      match PyFloat.parse s with
      | Some x => Ok x
      | None => Raise ValueError
      end
  end.

(** [v - w] *)
Definition py_sub (v w : value) : result value :=
  match v, w with
  | VNum x, VNum y => Ok (VNum (x - y))
  | _, _ => Raise TypeError
  end.

(** What a relation function returns: one value, or a tuple of values. *)
Inductive retval : Type :=
  | RVal (v : value)
  | RTuple (vs : list value).

(** [if not isinstance(out, tuple): out = (out,)] *)
Definition as_tuple (r : retval) : list value :=
  match r with
  | RVal v => [v]
  | RTuple vs => vs
  end.

(** [seq[i]] on a tuple or list *)
Definition py_index {A} (l : list A) (i : nat) : result A :=
  match l !! i with
  | Some a => Ok a
  | None => Raise IndexError
  end.

Record constraint : Type := Constraint {
  func : list value → result retval;
  inputs : list string;
  outputs : list string
}.

Record ConstraintLattice : Type := Lattice {
  nodes : gmap string value;
  constraints : list constraint
}.

Definition init : ConstraintLattice :=
  {| nodes := ∅; constraints := [] |}.

Definition add_node (node_id : string) (v : value) (self : ConstraintLattice)
  : ConstraintLattice :=
  {| nodes := <[node_id := v]> (nodes self); constraints := constraints self |}.

Definition add_constraint (constraint_func : list value → result retval)
    (ins outs : list string) (self : ConstraintLattice) : ConstraintLattice :=
  {| nodes := nodes self;
     constraints := constraints self ++
       [{| func := constraint_func; inputs := ins; outputs := outs |}] |}.

(** ** The relation dependency graph *)

Definition enumerate {A} (l : list A) : list (nat * A) := imap pair l.

(** [s.add(x)] on a set of ints *)
Fixpoint set_add (x : nat) (s : list nat) : list nat :=
  match s with
  | [] => [x]
  | y :: s' =>
      if (x <? y)%nat then x :: s
      else if (x =? y)%nat then s
      else y :: set_add x s'
  end.

(** [dep_graph[input_id].add(idx)] for every input of every relation *)
Definition dep_graph (cs : list constraint) : gmap string (list nat) :=
  foldl (λ g ic,
           foldl (λ g input_id,
                    <[input_id := set_add ic.1 (default [] (g !! input_id))]> g)
                 g (inputs ic.2))
        ∅ (enumerate cs).

(** [graph[idx].add(dep)] on a [defaultdict(set)] whose key order is kept *)
Fixpoint graph_add (idx dep : nat) (g : list (nat * list nat))
  : list (nat * list nat) :=
  match g with
  | [] => [(idx, [dep])]
  | (k, s) :: g' =>
      if (k =? idx)%nat then (k, set_add dep s) :: g'
      else (k, s) :: graph_add idx dep g'
  end.

(** [graph.get(node, set())] *)
Fixpoint graph_get (g : list (nat * list nat)) (node : nat) : list nat :=
  match g with
  | [] => []
  | (k, s) :: g' => if (k =? node)%nat then s else graph_get g' node
  end.

Definition constraint_graph (cs : list constraint) : list (nat * list nat) :=
  let dg := dep_graph cs in
  foldl (λ g ic,
           foldl (λ g output_id,
                    foldl (λ g dependent_idx, graph_add ic.1 dependent_idx g)
                          g (default [] (dg !! output_id)))
                 g (outputs ic.2))
        [] (enumerate cs).

(** ** Tarjan's strongly connected components *)

(** The variables [_tarjan_scc] closes over.  [stack] has its top first:
    [stack.append(w)] is a cons and [stack.pop()] takes the head. *)
Record tarjan_state : Type := TarjanState {
  index : nat;
  stack : list nat;
  indices : gmap nat nat;
  lowlinks : gmap nat nat;
  on_stack : gmap nat bool;
  sccs : list (list nat)
}.

Definition tarjan_init : tarjan_state :=
  {| index := 0; stack := []; indices := ∅; lowlinks := ∅;
     on_stack := ∅; sccs := [] |}.

(** [d[k]] on an int-keyed dict *)
Definition dict_get {A} (d : gmap nat A) (k : nat) : result A :=
  match d !! k with
  | Some a => Ok a
  | None => Raise (KeyErrorInt k)
  end.

Definition set_lowlink (node low : nat) (st : tarjan_state) : tarjan_state :=
  {| index := index st; stack := stack st; indices := indices st;
     lowlinks := <[node := low]> (lowlinks st);
     on_stack := on_stack st; sccs := sccs st |}.

(** The first five statements of [strongconnect]. *)
Definition enter (node : nat) (st : tarjan_state) : tarjan_state :=
  {| index := S (index st);
     stack := node :: stack st;
     indices := <[node := index st]> (indices st);
     lowlinks := <[node := index st]> (lowlinks st);
     on_stack := <[node := true]> (on_stack st);
     sccs := sccs st |}.

(** The [while True] loop that pops one component off the stack. *)
Fixpoint pop_scc (node : nat) (stk : list nat) (ons : gmap nat bool)
    (scc : list nat) : result (list nat * gmap nat bool * list nat) :=
  match stk with
  | [] => Raise IndexError
  | w :: stk' =>
      let ons' := <[w := false]> ons in
      let scc' := scc ++ [w] in
      if (w =? node)%nat then Ok (stk', ons', scc')
      else pop_scc node stk' ons' scc'
  end.

(** The tail of [strongconnect]: emit a component if [node] is a root. *)
Definition finish (node : nat) (st : tarjan_state) : result tarjan_state :=
  low ← dict_get (lowlinks st) node;
  idx ← dict_get (indices st) node;
  if (low =? idx)%nat then
    '(stk, ons, scc) ← pop_scc node (stack st) (on_stack st) [];
    mret {| index := index st; stack := stk; indices := indices st;
            lowlinks := lowlinks st; on_stack := ons;
            sccs := sccs st ++ [scc] |}
  else mret st.

(** The loop [for neighbor in graph.get(node, set())] of [strongconnect];
    [call] is the recursive call [strongconnect(neighbor)]. *)
Fixpoint visit (call : nat → tarjan_state → option (result tarjan_state))
    (node : nat) (neighbors : list nat) (st : tarjan_state)
  : option (result tarjan_state) :=
  match neighbors with
  | [] => Some (Ok st)
  | neighbor :: rest =>
      match indices st !! neighbor with
      | None =>
          match call neighbor st with
          | Some (Ok st') =>
              match
                (ln ← dict_get (lowlinks st') node;
                 lb ← dict_get (lowlinks st') neighbor;
                 mret (set_lowlink node (ln `min` lb) st'))
              with
              | Ok st'' => visit call node rest st''
              | Raise e => Some (Raise e)
              end
          | other => other
          end
      | Some inb =>
          if default false (on_stack st !! neighbor) then
            match dict_get (lowlinks st) node with
            | Ok ln => visit call node rest (set_lowlink node (ln `min` inb) st)
            | Raise e => Some (Raise e)
            end
          else visit call node rest st
      end
  end.

(** [strongconnect]; [None] when the recursion is deeper than [fuel]. *)
Fixpoint strongconnect (fuel : nat) (graph : list (nat * list nat))
    (node : nat) (st : tarjan_state) : option (result tarjan_state) :=
  match fuel with
  | O => None
  | S fuel' =>
      match
        visit (strongconnect fuel' graph) node (graph_get graph node)
              (enter node st)
      with
      | Some (Ok st') => Some (finish node st')
      | other => other
      end
  end.

(** The loop [for node in graph: if node not in indices: ...]. *)
Fixpoint tarjan_roots (fuel : nat) (graph : list (nat * list nat))
    (keys : list nat) (st : tarjan_state) : option (result tarjan_state) :=
  match keys with
  | [] => Some (Ok st)
  | node :: keys' =>
      match indices st !! node with
      | Some _ => tarjan_roots fuel graph keys' st
      | None =>
          match strongconnect fuel graph node st with
          | Some (Ok st') => tarjan_roots fuel graph keys' st'
          | other => other
          end
      end
  end.

Definition tarjan_run (fuel : nat) (graph : list (nat * list nat))
  : option (result tarjan_state) :=
  tarjan_roots fuel graph graph.*1 tarjan_init.

Definition _tarjan_scc (fuel : nat) (graph : list (nat * list nat))
  : option (result (list (list nat))) :=
  match tarjan_run fuel graph with
  | Some (Ok st) => Some (Ok (sccs st))
  | Some (Raise e) => Some (Raise e)
  | None => None
  end.

(** ** numpy *)

(** The three numpy operations [propagate] uses.  [None] stands for
    [numpy.linalg.LinAlgError].  [np_round6 x] is [round(x, 6)] on a numpy
    scalar.  [lstsq] returns one unknown per column. *)
Class Numpy : Type := {
  matrix_rank : list (list float) → option nat;
  lstsq : list (list float) → list float → option (list float);
  np_round6 : float → float;
  lstsq_columns : ∀ A b x row,
    lstsq A b = Some x → row ∈ A → length x = length row
}.

(** ** Propagation *)

(** A computation that mutates [self.nodes]: how it ended, and the node
    mapping as it was left. *)
Inductive run (A : Type) : Type :=
  | Return (a : A) (σ : gmap string value)
  | Throw (e : exn) (σ : gmap string value).
Arguments Return {A} a σ.
Arguments Throw {A} e σ.

Definition final_nodes {A} (r : run A) : gmap string value :=
  match r with
  | Return _ σ => σ
  | Throw _ σ => σ
  end.

Fixpoint foldM {A B} (f : B → A → result B) (b : B) (l : list A) : result B :=
  match l with
  | [] => Ok b
  | a :: l' => b' ← f b a; foldM f b' l'
  end.

Definition tolerance : float := 0x1.0c6f7a0b5ed8dp-20%float.
Definition iteration_limit : nat := 1000.

Definition name_le (s t : string) : Prop := Is_true (String.leb s t).

(** [sorted({...})] over node names *)
Definition sorted_set (l : list string) : list string :=
  merge_sort name_le (remove_dups l).

(** [var_index[node]], the position of [node] in [variables] *)
Fixpoint index_of (node : string) (l : list string) : option nat :=
  match l with
  | [] => None
  | x :: l' => if String.eqb x node then Some 0%nat else S <$> index_of node l'
  end.

(** [tuple(sorted(self.nodes.items()))] *)
Definition state_key (σ : gmap string value) : list (string * value) :=
  merge_sort (λ p q, name_le p.1 q.1) (map_to_list σ).

Fixpoint state_eqb (k1 k2 : list (string * value)) : bool :=
  match k1, k2 with
  | [], [] => true
  | (n1, v1) :: k1', (n2, v2) :: k2' =>
      String.eqb n1 n2 && value_eqb v1 v2 && state_eqb k1' k2'
  | _, _ => false
  end.

(** The rounding loop that closes Step B. *)
Definition round_value (v : value) : value :=
  match v with
  | VNum x => VNum (py_round6 x)
  | _ => v
  end.

Definition round_nodes (σ : gmap string value) : gmap string value :=
  round_value <$> σ.

Section Propagate.
Context {np : Numpy}.
Variable cs : list constraint.

(** *** Step A: linearise and solve *)

Definition variables (σ : gmap string value) (scc : list nat)
  : result (list string) :=
  outs ← mapM (λ constraint_idx, outputs <$> py_index cs constraint_idx) scc;
  mret (sorted_set (filter (λ node, is_Some (σ !! node)) (mjoin outs))).

(** [perturbed = baseline_inputs.copy(); perturbed[inp_idx] += 1.0] *)
Definition perturb (baseline : list float) (inp_idx : nat) : list float :=
  alter (λ x, x + 1)%float inp_idx baseline.

(** The body of [for inp_idx, input_id in enumerate(inputs)]. *)
Definition linearize_input (c : constraint) (vars : list string)
    (baseline : list float) (base_output : list value) (out_pos : nat)
    (eqn : list float * float) (ii : nat * string)
  : result (list float * float) :=
  match index_of ii.2 vars with
  | None => Ok eqn
  | Some col =>
      perturbed_output ← as_tuple <$> func c (VNum <$> perturb baseline ii.1);
      po ← py_index perturbed_output out_pos;
      bo ← py_index base_output out_pos;
      d ← py_sub po bo;
      delta ← py_float d;
      x ← py_index baseline ii.1;
      mret (alter (λ a, a - delta)%float col eqn.1,
            (eqn.2 - delta * x)%float)
  end.

(** The body of [for out_pos, output_id in enumerate(outputs)]. *)
Definition linearize_output (c : constraint) (vars : list string)
    (baseline : list float) (base_output : list value)
    (sys : list (list float) * list float) (oo : nat * string)
  : result (list (list float) * list float) :=
  match index_of oo.2 vars with
  | None => Ok sys
  | Some col =>
      let row := <[col := 1%float]> (replicate (length vars) 0%float) in
      bo ← py_index base_output oo.1;
      constant ← py_float bo;
      eqn ← foldM (linearize_input c vars baseline base_output oo.1)
                  (row, constant) (enumerate (inputs c));
      mret (sys.1 ++ [eqn.1], sys.2 ++ [eqn.2])
  end.

(** The body of [for constraint_idx in scc] in Step A. *)
Definition linearize_constraint (σ : gmap string value) (vars : list string)
    (sys : list (list float) * list float) (constraint_idx : nat)
  : result (list (list float) * list float) :=
  c ← py_index cs constraint_idx;
  baseline ← mapM (λ node, py_float (default (VNum 0) (σ !! node))) (inputs c);
  base_output ← as_tuple <$> func c (VNum <$> baseline);
  foldM (linearize_output c vars baseline base_output) sys
        (enumerate (outputs c)).

(** [rows] and [constants]; both stay empty when there is no variable. *)
Definition linearize (σ : gmap string value) (vars : list string)
    (scc : list nat) : result (list (list float) * list float) :=
  match vars with
  | [] => Ok ([], [])
  | _ => foldM (linearize_constraint σ vars) ([], []) scc
  end.

(** [for node, idx in var_index.items(): self.nodes[node] = ...] *)
Fixpoint assign_solution (vi : list (nat * string)) (solution : list float)
    (σ : gmap string value) : run unit :=
  match vi with
  | [] => Return () σ
  | (idx, node) :: vi' =>
      match solution !! idx with
      | Some x => assign_solution vi' solution (<[node := VNum (np_round6 x)]> σ)
      | None => Throw IndexError σ
      end
  end.

(** The [if rows:] block; [None] when [solved] stays [False]. *)
Definition solve (vars : list string) (rows : list (list float))
    (constants : list float) (σ : gmap string value) : option (run unit) :=
  match rows with
  | [] => None
  | _ =>
      match matrix_rank rows with
      | Some r =>
          if (r =? length vars)%nat then
            match lstsq rows constants with
            | Some solution =>
                Some (assign_solution (enumerate vars) solution σ)
            | None => None
            end
          else None
      | None => None
      end
  end.

(** *** Step B: damped relaxation *)

(** The body of [for j, output_id in enumerate(constraint["outputs"])],
    once [new_val] is known. *)
Definition relax_output (σ : gmap string value) (changed : bool)
    (output_id : string) (new_val : value) : gmap string value * bool :=
  let old_val := default VNone (σ !! output_id) in
  match old_val with
  | VNum old =>
      match new_val with
      | VNum new =>
          let updated_val := (old + 0.5 * (new - old))%float in
          if (abs (updated_val - old) <=? tolerance)%float then (σ, changed)
          else if PrimFloat.eqb updated_val old then (σ, changed)
          else (<[output_id := VNum updated_val]> σ, true)
      | _ =>
          if value_eqb new_val old_val then (σ, changed)
          else (<[output_id := new_val]> σ, true)
      end
  | _ =>
      if value_eqb old_val new_val then (σ, changed)
      else (<[output_id := new_val]> σ, true)
  end.

Fixpoint relax_outputs (outs : list (nat * string)) (output_vals : list value)
    (σ : gmap string value) (changed : bool) : run bool :=
  match outs with
  | [] => Return changed σ
  | (j, output_id) :: outs' =>
      match output_vals !! j with
      | Some new_val =>
          let '(σ', changed') := relax_output σ changed output_id new_val in
          relax_outputs outs' output_vals σ' changed'
      | None => Throw IndexError σ
      end
  end.

(** [self.nodes[i]] *)
Definition read_node (σ : gmap string value) (i : string) : result value :=
  match σ !! i with
  | Some v => Ok v
  | None => Raise (KeyError i)
  end.

(** The body of [for constraint_idx in scc] in Step B. *)
Definition relax_constraint (constraint_idx : nat) (σ : gmap string value)
    (changed : bool) : run bool :=
  match
    (c ← py_index cs constraint_idx;
     input_vals ← mapM (read_node σ) (inputs c);
     output_vals ← as_tuple <$> func c input_vals;
     mret (c, output_vals))
  with
  | Ok (c, output_vals) =>
      relax_outputs (enumerate (outputs c)) output_vals σ changed
  | Raise e => Throw e σ
  end.

(** One pass of [for constraint_idx in scc], from [changed]. *)
Fixpoint relax_pass (scc : list nat) (σ : gmap string value) (changed : bool)
  : run bool :=
  match scc with
  | [] => Return changed σ
  | constraint_idx :: scc' =>
      match relax_constraint constraint_idx σ changed with
      | Return changed' σ' => relax_pass scc' σ' changed'
      | Throw e σ' => Throw e σ'
      end
  end.

(** The [while True] loop; [None] when it needs more than [fuel] turns. *)
Fixpoint relax_loop (fuel : nat) (scc : list nat)
    (seen_states : list (list (string * value))) (iteration : nat)
    (σ : gmap string value) : option (run unit) :=
  match fuel with
  | O => None
  | S fuel' =>
      let key := state_key σ in
      if existsb (state_eqb key) seen_states then Some (Return () σ)
      else
        let seen_states' := key :: seen_states in
        let iteration' := S iteration in
        if (iteration_limit <? iteration')%nat then Some (Return () σ)
        else
          match relax_pass scc σ false with
          | Return true σ' => relax_loop fuel' scc seen_states' iteration' σ'
          | Return false σ' => Some (Return () σ')
          | Throw e σ' => Some (Throw e σ')
          end
  end.

(** Step B with the rounding that follows it. *)
Definition relax (scc : list nat) (σ : gmap string value) : option (run unit) :=
  match relax_loop (S iteration_limit) scc [] 0 σ with
  | Some (Return _ σ') => Some (Return () (round_nodes σ'))
  | other => other
  end.

(** *** The loop over the components *)

(** The body of [for i, scc in enumerate(sccs)]. *)
Definition process_scc (scc : list nat) (σ : gmap string value)
  : option (run unit) :=
  match (vars ← variables σ scc;
         sys ← linearize σ vars scc;
         mret (vars, sys)) with
  | Raise e => Some (Throw e σ)
  | Ok (vars, (rows, constants)) =>
      match solve vars rows constants σ with
      | Some r => Some r
      | None => relax scc σ
      end
  end.

Fixpoint process_sccs (l : list (list nat)) (σ : gmap string value)
  : option (run unit) :=
  match l with
  | [] => Some (Return () σ)
  | scc :: l' =>
      match process_scc scc σ with
      | Some (Return _ σ') => process_sccs l' σ'
      | other => other
      end
  end.

End Propagate.

(** [ConstraintLattice.propagate]: [None] if a bound of the model was too
    small, otherwise how the call ended and the node mapping it left. *)
Definition propagate {np : Numpy} (self : ConstraintLattice) : option (run unit) :=
  let cs := constraints self in
  match _tarjan_scc (length cs) (constraint_graph cs) with
  | Some (Ok l) => process_sccs cs (reverse l) (nodes self)
  | Some (Raise e) => Some (Throw e (nodes self))
  | None => None
  end.

(** ** A reference numpy *)

(** Modelled from the spec: numpy is outside the repository.  The reference
    computes what [numpy.linalg.matrix_rank] and [numpy.linalg.lstsq]
    approximate in floating point (the rank of the matrix and the
    least-squares solution of a full-column-rank system) in exact rational
    arithmetic, and rounds each unknown to the nearest float; a numpy
    scalar is rounded as numpy does, [rint(x * 10**6) / 10**6].  A matrix
    with an infinity or a NaN, a ragged matrix and a rank-deficient system
    are reported as [None]. *)
Module NumpyRef.

Definition Q_of_float (x : float) : option Q :=
  match Prim2SF x with
  | S754_zero _ => Some (0 # 1)
  | S754_finite s m e =>
      let n := if s then Z.neg m else Z.pos m in
      match e with
      | Z.neg k => Some (Qred (n # (2 ^ k)%positive))
      | _ => Some ((n * 2 ^ e)%Z # 1)
      end
  | _ => None
  end.

Definition float_of_Q (q : Q) : float :=
  match Qnum q with
  | Z0 => 0%float
  | Z.pos n => nearest_ratio false n (Qden q)
  | Z.neg n => nearest_ratio true n (Qden q)
  end.

Definition is_zero (q : Q) : bool := (Qnum q =? 0)%Z.

Definition head (r : list Q) : Q := hd (0 # 1) r.

Definition dot (u v : list Q) : Q :=
  foldr (λ p acc, Qred (Qplus (Qmult p.1 p.2) acc)) (0 # 1) (zip u v).

(** [r - (head r / head p) * p] *)
Definition eliminate (p r : list Q) : list Q :=
  let f := Qdiv (head r) (head p) in
  zip_with (λ a b, Qred (Qminus a (Qmult f b))) r p.

(** The first row whose head is not zero, and the other rows. *)
Fixpoint pick_pivot (rows : list (list Q)) : option (list Q * list (list Q)) :=
  match rows with
  | [] => None
  | r :: rows' =>
      if is_zero (head r) then
        match pick_pivot rows' with
        | Some (p, others) => Some (p, r :: others)
        | None => None
        end
      else Some (r, rows')
  end.

Fixpoint rank (ncols : nat) (rows : list (list Q)) : nat :=
  match ncols with
  | O => 0
  | S k =>
      match pick_pivot rows with
      | Some (p, others) => S (rank k ((λ r, tail (eliminate p r)) <$> others))
      | None => rank k (tail <$> rows)
      end
  end.

(** The solution of [n] unknowns from rows [a_1 .. a_n b], if unique. *)
Fixpoint gauss (n : nat) (rows : list (list Q)) : option (list Q) :=
  match n with
  | O => Some []
  | S k =>
      match pick_pivot rows with
      | Some (p, others) =>
          match gauss k ((λ r, tail (eliminate p r)) <$> others) with
          | Some xs =>
              let b := head (drop k (tail p)) in
              Some (Qred (Qdiv (Qminus b (dot (take k (tail p)) xs)) (head p)) :: xs)
          | None => None
          end
      | None => None
      end
  end.

Definition column (A : list (list Q)) (j : nat) : list Q :=
  (λ r, nth j r (0 # 1)) <$> A.

(** The normal equations [AᵀA x = Aᵀb], as rows [AᵀA | Aᵀb]. *)
Definition normal_equations (n : nat) (A : list (list Q)) (b : list Q)
  : list (list Q) :=
  (λ i, ((λ j, dot (column A i) (column A j)) <$> seq 0 n)
          ++ [dot (column A i) b]) <$> seq 0 n.

Definition to_Q (A : list (list float)) : option (list (list Q)) :=
  mapM (mapM Q_of_float) A.

Definition columns (A : list (list float)) : nat := length (hd [] A).

Definition rectangular (A : list (list float)) : bool :=
  forallb (λ r, (length r =? columns A)%nat) A.

Definition matrix_rank (A : list (list float)) : option nat :=
  if rectangular A then rank (columns A) <$> to_Q A else None.

Definition lstsq (A : list (list float)) (b : list float) : option (list float) :=
  if rectangular A && (length b =? length A)%nat then
    match to_Q A, mapM (M := option) Q_of_float b with
    | Some A', Some b' =>
        (λ xs : list Q, float_of_Q <$> xs)
          <$> gauss (columns A) (normal_equations (columns A) A' b')
    | _, _ => None
    end
  else None.

Definition round6 (x : float) : float :=
  (rint (x * 1000000) / 1000000)%float.

End NumpyRef.

Lemma gauss_length n rows xs :
  NumpyRef.gauss n rows = Some xs → length xs = n.
Proof.
  revert rows xs. induction n as [|k IH]; intros rows xs; simpl.
  - by intros [= <-].
  - destruct (NumpyRef.pick_pivot rows) as [[p others]|]; [|done].
    destruct (NumpyRef.gauss k _) as [ys|] eqn:Hg; [|done].
    intros [= <-]. simpl. f_equal. by eapply IH.
Qed.

Lemma lstsq_ref_columns A b x row :
  NumpyRef.lstsq A b = Some x → row ∈ A → length x = length row.
Proof.
  unfold NumpyRef.lstsq.
  destruct (NumpyRef.rectangular A) eqn:Hrect; simpl; [|done].
  destruct (length b =? length A)%nat; [|done].
  destruct (NumpyRef.to_Q A) as [A'|]; [|done].
  destruct (mapM _ b) as [b'|]; [|done].
  destruct (NumpyRef.gauss _ _) as [xs|] eqn:Hg; [|done].
  intros [= <-] Hrow. rewrite length_fmap, (gauss_length _ _ _ Hg).
  unfold NumpyRef.rectangular in Hrect.
  rewrite forallb_forall in Hrect.
  apply list_elem_of_In, Hrect, Nat.eqb_eq in Hrow. done.
Qed.

Definition numpy_ref : Numpy :=
  {| matrix_rank := NumpyRef.matrix_rank;
     lstsq := NumpyRef.lstsq;
     np_round6 := NumpyRef.round6;
     lstsq_columns := lstsq_ref_columns |}.

(** ** Example lattices *)

(** [lambda x: k * x + c] *)
Definition affine (k c : float) : list value → result retval :=
  λ args,
    match args with
    | [VNum x] => Ok (RVal (VNum (k * x + c)))
    | _ => Raise TypeError
    end.

(** [lambda x: x + c] *)
Definition shift (c : float) : list value → result retval :=
  λ args,
    match args with
    | [VNum x] => Ok (RVal (VNum (x + c)))
    | _ => Raise TypeError
    end.

(** [lambda v: v] *)
Definition same : list value → result retval :=
  λ args,
    match args with
    | [v] => Ok (RVal v)
    | _ => Raise TypeError
    end.

(** [lambda v, w: v] *)
Definition first_of_two : list value → result retval :=
  λ args,
    match args with
    | [v; _] => Ok (RVal v)
    | _ => Raise TypeError
    end.

(** Nodes [x = 0] and [y] (initially [v]); the relation [y = 2*x + 3]. *)
Definition affine_lattice (v : value) : ConstraintLattice :=
  add_constraint (affine 2 3) ["x"] ["y"]
    (add_node "y" v (add_node "x" (VNum 0) init)).

(** The same with [x = x0] and a consumer [z = y + 1] of [y]. *)
Definition chain_lattice (x0 : float) : ConstraintLattice :=
  add_constraint (shift 1) ["y"] ["z"]
    (add_constraint (affine 2 3) ["x"] ["y"]
       (add_node "z" VNone (add_node "y" VNone (add_node "x" (VNum x0) init)))).

(** [a = b + 1] and [b = a - 1], from [a = b = 0]. *)
Definition cycle_lattice : ConstraintLattice :=
  add_constraint (shift (-1)) ["a"] ["b"]
    (add_constraint (shift 1) ["b"] ["a"]
       (add_node "b" (VNum 0) (add_node "a" (VNum 0) init))).

(** Three opaque nodes copied along a chain. *)
Definition opaque_lattice : ConstraintLattice :=
  add_constraint same ["t"] ["u"]
    (add_constraint same ["s"] ["t"]
       (add_node "u" (VStr "") (add_node "t" (VStr "")
          (add_node "s" (VStr "hello") init)))).

(** [a = b] (declaring a second input [zz] that is no node) and [b = a]. *)
Definition missing_input_lattice : ConstraintLattice :=
  add_constraint same ["a"] ["b"]
    (add_constraint first_of_two ["b"; "zz"] ["a"]
       (add_node "b" (VNum 5) (add_node "a" (VNum 1) init))).

(** [x = x + 1], from [x = x0]. *)
Definition counter_lattice (x0 : float) : ConstraintLattice :=
  add_constraint (shift 1) ["x"] ["x"] (add_node "x" (VNum x0) init).

(** [a = b] and [b = a], from [a = b = 1]. *)
Definition mirror_lattice : ConstraintLattice :=
  add_constraint same ["a"] ["b"]
    (add_constraint same ["b"] ["a"]
       (add_node "b" (VNum 1) (add_node "a" (VNum 1) init))).

(** [u = 2*c] and [w = u + 1], where only [c] is a registered node. *)
Definition unregistered_lattice : ConstraintLattice :=
  add_constraint (shift 1) ["u"] ["w"]
    (add_constraint (affine 2 0) ["c"] ["u"]
       (add_node "c" (VNum 1) init)).

(** ** Properties read off the specification *)

(** The rounding invariant: every numeric node equals itself rounded. *)
Definition rounded (σ : gmap string value) : Prop :=
  ∀ k x, σ !! k = Some (VNum x) → py_round6 x = x.

(** Relation indices listed in registration order. *)
Definition registration_order (scc : list nat) : Prop :=
  StronglySorted lt scc.

(** The same registrations over another node mapping. *)
Definition with_nodes (σ : gmap string value) (self : ConstraintLattice)
  : ConstraintLattice :=
  {| nodes := σ; constraints := constraints self |}.

(** Every node holds a number or a string, every declared input is a
    registered node, and every relation function returns one value per
    output for any argument list of the right length. *)
Definition well_formed (self : ConstraintLattice) : Prop :=
  (∀ k v, nodes self !! k = Some v → v ≠ VNone) ∧
  ∀ c, c ∈ constraints self →
    (∀ i, i ∈ inputs c → is_Some (nodes self !! i)) ∧
    (∀ args, length args = length (inputs c) →
       ∃ r, func c args = Ok r ∧ length (as_tuple r) = length (outputs c)).

(** ** Predicates used in the proofs *)

Definition set_bounded (n : nat) (s : list nat) : Prop := ∀ x, x ∈ s → (x < n)%nat.

Definition graph_bounded (n : nat) (g : list (nat * list nat)) : Prop :=
  ∀ k s, (k, s) ∈ g → (k < n)%nat ∧ set_bounded n s.

Definition indexed_below (n : nat) (st : tarjan_state) : Prop :=
  ∀ k, is_Some (indices st !! k) → (k < n)%nat.

(** What a terminated call leaves: more nodes indexed, all below [n]. *)
Definition returned (n : nat) (st : tarjan_state)
    (r : option (result tarjan_state)) : Prop :=
  match r with
  | None => False
  | Some (Raise _) => True
  | Some (Ok st') =>
      indexed_below n st' ∧ (size (indices st) ≤ size (indices st'))%nat
  end.

(** Every row of a linear system has [n] coefficients. *)
Definition rows_of_width (n : nat) (sys : list (list float) * list float) : Prop :=
  ∀ row, row ∈ sys.1 → length row = n.

(** Step A leaves the component to Step B. *)
Definition step_a_unsolved {np : Numpy} (cs : list constraint)
    (σ : gmap string value) (scc : list nat) : Prop :=
  ∃ vars rows constants,
    variables cs σ scc = Ok vars ∧
    linearize cs σ vars scc = Ok (rows, constants) ∧
    solve vars rows constants σ = None.

(** [a] got its depth-first index after [b]. *)
Definition discovered_later (m : gmap nat nat) (a b : nat) : Prop :=
  ∃ i j, m !! a = Some i ∧ m !! b = Some j ∧ (j < i)%nat.

(** What [strongconnect] maintains: indices are below the counter, the
    stack holds indexed nodes, latest discovered first, and so does every
    component emitted so far. *)
Record pop_ordered (st : tarjan_state) : Prop := PopOrdered {
  indices_below : ∀ k i, indices st !! k = Some i → (i < index st)%nat;
  stack_indexed : ∀ k, k ∈ stack st → is_Some (indices st !! k);
  stack_ordered : StronglySorted (discovered_later (indices st)) (stack st);
  sccs_ordered : ∀ scc, scc ∈ sccs st →
    StronglySorted (discovered_later (indices st)) scc
}.

Definition cycle_settled : gmap string value :=
  <["a" := VNum (nearest_ratio false 333332 1000000)]>
    (<["b" := VNum (nearest_ratio true 666666 1000000)]> ∅).

(** Tarjan's variables after the pass over the graph of [cycle_lattice]. *)
Definition cycle_tarjan_state : tarjan_state :=
  Eval vm_compute in
    match tarjan_run 2 (constraint_graph (constraints cycle_lattice)) with
    | Some (Ok st) => st
    | _ => tarjan_init
    end.

(** The float nearest to 0.1234567. *)
Definition unrounded : float := nearest_ratio false 1234567 10000000.

(** ** Predicates for the graph, Tarjan's pass and the writes *)

Local Close Scope Z_scope.

(** [dep_graph.get(name, set())] *)
Definition dependents (dg : gmap string (list nat)) (name : string) : list nat :=
  default [] (dg !! name).

(** The two loops that fill [dep_graph], over any list of indexed
    relations and from any starting map. *)
Definition dep_graph_inputs (idx : nat) (g : gmap string (list nat))
    (ins : list string) : gmap string (list nat) :=
  foldl (λ g input_id,
           <[input_id := set_add idx (default [] (g !! input_id))]> g) g ins.

(** The three loops that fill [constraint_graph], for any [dep_graph]. *)
Definition graph_of (dg : gmap string (list nat)) (g : list (nat * list nat))
    (l : list (nat * constraint)) : list (nat * list nat) :=
  foldl (λ g ic,
           foldl (λ g output_id,
                    foldl (λ g dependent_idx, graph_add ic.1 dependent_idx g)
                          g (default [] (dg !! output_id)))
                 g (outputs ic.2))
        g l.

(** Every key of the graph has a neighbour. *)
Definition keys_have_edges (g : list (nat * list nat)) : Prop :=
  ∀ k s, (k, s) ∈ g → s ≠ [].

(** What the loops keep while they add edges out of relation [idx]. *)
Definition graph_filled_to (idx : nat) (g : list (nat * list nat)) : Prop :=
  StronglySorted lt g.*1 ∧ (∀ k, k ∈ g.*1 → (k ≤ idx)%nat) ∧ keys_have_edges g.

(** The nodes of a graph: its keys and their neighbours. *)
Definition graph_node (g : list (nat * list nat)) (k : nat) : Prop :=
  k ∈ g.*1 ∨ ∃ v, k ∈ graph_get g v.

(** Every neighbour of a member of the [n]-th component emitted is in that
    component or in one emitted before it. *)
Definition emitted_closed (g : list (nat * list nat)) (l : list (list nat))
  : Prop :=
  ∀ n S v w, l !! n = Some S → v ∈ S → w ∈ graph_get g v →
    ∃ m S', (m ≤ n)%nat ∧ l !! m = Some S' ∧ w ∈ S'.

(** [w] can be reached from [v] along the edges of the graph. *)
Definition reaches (g : list (nat * list nat)) : nat → nat → Prop :=
  rtc (λ v w, w ∈ graph_get g v).

Record tarjan_inv (g : list (nat * list nat)) (st : tarjan_state) : Prop :=
  TarjanInv {
  ti_ordered : pop_ordered st;
  ti_low_dom : ∀ k, is_Some (indices st !! k) → is_Some (lowlinks st !! k);
  ti_on_stack : ∀ k, on_stack st !! k = Some true ↔ k ∈ stack st;
  ti_nodup : NoDup (stack st ++ mjoin (sccs st));
  ti_indexed : ∀ k,
    is_Some (indices st !! k) ↔ k ∈ stack st ++ mjoin (sccs st);
  ti_low_stack : ∀ k, k ∈ stack st →
    ∃ l ik w, lowlinks st !! k = Some l ∧ indices st !! k = Some ik ∧
              (l ≤ ik)%nat ∧ w ∈ stack st ∧ indices st !! w = Some l;
  ti_source : ∀ k, is_Some (indices st !! k) → graph_node g k;
  ti_closed : emitted_closed g (sccs st);
  ti_stack_reach : ∀ pre a post b,
    stack st = pre ++ a :: post → b ∈ pre → reaches g a b;
  ti_low_reach : ∀ x w l, x ∈ stack st → w ∈ stack st →
    lowlinks st !! x = Some l → indices st !! w = Some l → reaches g x w;
  ti_connected : ∀ S x y, S ∈ sccs st → x ∈ S → y ∈ S → reaches g x y;
  ti_nonempty : ∀ S, S ∈ sccs st → S ≠ []
}.

(** [on_stack[w] = False] for every [w] popped. *)
Definition clear_flags (ons : gmap nat bool) (l : list nat) : gmap nat bool :=
  foldl (λ m w, <[w := false]> m) ons l.

(** [w] is indexed, and if it sits in [s0] its index is at least [low]. *)
Definition low_bounds (st : tarjan_state) (s0 : list nat) (low w : nat) : Prop :=
  is_Some (indices st !! w) ∧
  (w ∈ s0 → ∃ iw, indices st !! w = Some iw ∧ (low ≤ iw)%nat).

(** What [strongconnect(node)] leaves, from [st] to [st']. *)
Definition sc_post (g : list (nat * list nat)) (node : nat)
    (st st' : tarjan_state) : Prop :=
  tarjan_inv g st' ∧ indices st ⊆ indices st' ∧
  is_Some (indices st' !! node) ∧
  (∀ k, is_Some (indices st !! k) → lowlinks st' !! k = lowlinks st !! k) ∧
  (node ∈ stack st' ∨ lowlinks st' !! node = Some (index st)) ∧
  ∃ new, stack st' = new ++ stack st ∧ (stack st = [] → new = []) ∧
    (∀ x, x ∈ new → ∃ z, z ∈ stack st ∧ reaches g x z) ∧
    ∀ x w, x ∈ new → w ∈ graph_get g x →
      ∃ l, lowlinks st' !! node = Some l ∧ low_bounds st' (stack st) l w.

(** The state inside the loop of [strongconnect(p)]: [p] sits on the
    stack above [s0], under the nodes [new]. *)
Definition visiting (g : list (nat * list nat)) (p ip : nat) (s0 : list nat)
    (st : tarjan_state) (new : list nat) (lp : nat) : Prop :=
  tarjan_inv g st ∧ stack st = new ++ p :: s0 ∧
  indices st !! p = Some ip ∧ lowlinks st !! p = Some lp ∧
  (∀ x, x ∈ new → reaches g x p) ∧
  ∀ x w, x ∈ new → w ∈ graph_get g x → low_bounds st s0 lp w.

(** Every name some relation declares as an output. *)
Definition all_outputs (cs : list constraint) : list string :=
  mjoin (outputs <$> cs).

(** From [σ] to [σ']: no node is lost, and a name outside [O] holds what
    it held, passed zero or more times through the rounding of Step B. *)
Definition writes_within (O : list string) (σ σ' : gmap string value) : Prop :=
  (∀ k, is_Some (σ !! k) → is_Some (σ' !! k)) ∧
  (∀ k, k ∉ O → ∃ n, σ' !! k = Nat.iter n round_value <$> σ !! k).

(** The equations one relation contributes: one per output that is a
    variable. *)
Definition equations_of (vars : list string) (c : constraint) : nat :=
  length (filter (λ o, is_Some (index_of o vars)) (outputs c)).

(** The relations of [scc] exist, read registered nodes only, and their
    functions return at least one value per output. *)
Definition step_b_safe (cs : list constraint) (scc : list nat)
    (σ : gmap string value) : Prop :=
  ∀ idx, idx ∈ scc → ∃ c, cs !! idx = Some c ∧
    (∀ i, i ∈ inputs c → is_Some (σ !! i)) ∧
    ∀ args, length args = length (inputs c) →
      ∃ r, func c args = Ok r ∧ (length (outputs c) ≤ length (as_tuple r))%nat.

(** Relation [j] reads a name that relation [i] writes. *)
Definition feeds (cs : list constraint) (i j : nat) : Prop :=
  ∃ ci cj name,
    cs !! i = Some ci ∧ name ∈ outputs ci ∧
    cs !! j = Some cj ∧ name ∈ inputs cj.

Local Open Scope Z_scope.

(** * Folds and enumerations *)

Lemma foldl_invariant {A B} (P : B → Prop) (f : B → A → B) (l : list A) (b : B) :
  P b → (∀ b a, a ∈ l → P b → P (f b a)) → P (foldl f b l).
Proof.
  revert b. induction l as [|a l IH]; intros b Hb Hf; simpl; [done|].
  apply IH.
  - apply Hf; [left|done].
  - intros b' a' Ha'. apply Hf. by right.
Qed.

Lemma elem_of_enumerate {A} (l : list A) (i : nat) (a : A) :
  (i, a) ∈ enumerate l ↔ l !! i = Some a.
Proof.
  unfold enumerate. rewrite elem_of_lookup_imap. split.
  - by intros (j & x & [= -> ->] & Hx).
  - intros Hi. by exists i, a.
Qed.

Lemma elem_of_set_add (x y : nat) (s : list nat) :
  y ∈ set_add x s ↔ y = x ∨ y ∈ s.
Proof.
  induction s as [|z s IH]; simpl.
  - rewrite list_elem_of_singleton, elem_of_nil. tauto.
  - destruct (x <? z)%nat; [by rewrite elem_of_cons|].
    destruct (x =? z)%nat eqn:Hxz.
    + apply Nat.eqb_eq in Hxz as ->. rewrite elem_of_cons. tauto.
    + rewrite !elem_of_cons, IH. tauto.
Qed.

(** * The relation graph only mentions relation indices *)

Lemma dep_graph_bounded (cs : list constraint) (name : string) (s : list nat) :
  dep_graph cs !! name = Some s → set_bounded (length cs) s.
Proof.
  revert name s. unfold dep_graph.
  apply (foldl_invariant (λ g : gmap string (list nat), ∀ name s, g !! name = Some s → set_bounded (length cs) s)).
  - intros name s. by rewrite lookup_empty.
  - intros g [i c] Hic Hg. apply elem_of_enumerate, lookup_lt_Some in Hic.
    apply foldl_invariant; [done|].
    intros g' input_id _ Hg' name s. simpl.
    destruct (decide (input_id = name)) as [->|Hne].
    + rewrite lookup_insert_eq. intros [= <-] x.
      rewrite elem_of_set_add. intros [->|Hx]; [done|].
      destruct (g' !! name) as [s'|] eqn:Hs'; simpl in Hx.
      * by eapply Hg'.
      * by apply elem_of_nil in Hx.
    + rewrite lookup_insert_ne by done. apply Hg'.
Qed.

Lemma graph_add_bounded n idx dep g :
  (idx < n)%nat → (dep < n)%nat → graph_bounded n g → graph_bounded n (graph_add idx dep g).
Proof.
  intros Hidx Hdep. induction g as [|[k s] g IH]; intros Hg k' s'; simpl.
  - rewrite list_elem_of_singleton. intros [= -> ->]. split; [done|].
    intros x. rewrite list_elem_of_singleton. by intros ->.
  - destruct (k =? idx)%nat eqn:Hk.
    + rewrite elem_of_cons. intros [[= -> ->]|Hin].
      * destruct (Hg k s) as [Hk' Hs]; [left|]. split; [done|].
        intros x. rewrite elem_of_set_add. intros [->|Hx]; [done|by apply Hs].
      * apply Hg. by right.
    + rewrite elem_of_cons. intros [[= -> ->]|Hin].
      * apply Hg. left.
      * apply IH; [|done]. intros k'' s'' Hin'. apply Hg. by right.
Qed.

Lemma constraint_graph_bounded (cs : list constraint) :
  graph_bounded (length cs) (constraint_graph cs).
Proof.
  unfold constraint_graph.
  apply (foldl_invariant (graph_bounded (length cs))).
  - intros k s Hin. by apply elem_of_nil in Hin.
  - intros g [i c] Hic Hg. apply elem_of_enumerate, lookup_lt_Some in Hic.
    apply foldl_invariant; [done|].
    intros g' output_id _ Hg'.
    apply foldl_invariant; [done|].
    intros g'' dep Hdep Hg''. simpl.
    apply graph_add_bounded; [done| |done].
    destruct (dep_graph cs !! output_id) as [s|] eqn:Hs; simpl in Hdep.
    + by eapply dep_graph_bounded.
    + by apply elem_of_nil in Hdep.
Qed.

Lemma graph_get_bounded n g node :
  graph_bounded n g → set_bounded n (graph_get g node).
Proof.
  induction g as [|[k s] g IH]; intros Hg; simpl.
  - intros x Hx. by apply elem_of_nil in Hx.
  - destruct (k =? node)%nat.
    + apply (Hg k s). left.
    + apply IH. intros k' s' Hin. apply Hg. by right.
Qed.

(** * Tarjan's pass returns *)

Lemma indexed_below_size n st :
  indexed_below n st → (size (indices st) ≤ n)%nat.
Proof.
  intros Hb. rewrite <- size_dom.
  assert (dom (indices st) ⊆ set_seq (C := gset nat) 0 n) as Hsub; last first.
  { apply subseteq_size in Hsub. by rewrite size_set_seq in Hsub. }
  intros k Hk.
  apply elem_of_set_seq. split; [lia|]. simpl. by apply Hb, elem_of_dom.
Qed.

Lemma enter_indexed_below n node st :
  (node < n)%nat → indexed_below n st → indexed_below n (enter node st).
Proof.
  intros Hn Hb k. simpl. destruct (decide (node = k)) as [->|Hne].
  - done.
  - rewrite lookup_insert_ne by done. apply Hb.
Qed.

Lemma enter_size node st :
  indices st !! node = None →
  size (indices (enter node st)) = S (size (indices st)).
Proof. intros Hnone. simpl. by rewrite map_size_insert_None. Qed.

Lemma finish_indices node st st' :
  finish node st = Ok st' → indices st' = indices st.
Proof.
  unfold finish. destruct (dict_get (lowlinks st) node) as [low|]; [simpl|done].
  destruct (dict_get (indices st) node) as [idx|]; [simpl|done].
  destruct (low =? idx)%nat.
  - destruct (pop_scc _ _ _ _) as [[[stk ons] scc]|]; [simpl|done].
    by intros [= <-].
  - by intros [= <-].
Qed.

Lemma visit_returns n call node neighbors st (fuel : nat) :
  (∀ nb st0, (nb < n)%nat → indices st0 !! nb = None → indexed_below n st0 →
     (n ≤ fuel + size (indices st0))%nat → returned n st0 (call nb st0)) →
  set_bounded n neighbors → indexed_below n st →
  (n ≤ fuel + size (indices st))%nat →
  returned n st (visit call node neighbors st).
Proof.
  intros Hcall. revert st.
  induction neighbors as [|nb rest IH]; intros st Hnb Hb Hfuel; simpl.
  - done.
  - assert (set_bounded n rest) as Hrest.
    { intros x Hx. apply Hnb. by right. }
    destruct (indices st !! nb) as [inb|] eqn:Hinb.
    + destruct (default false (on_stack st !! nb)).
      * destruct (dict_get (lowlinks st) node) as [ln|]; [|done].
        by apply (IH (set_lowlink node _ st)).
      * by apply IH.
    + specialize (Hcall nb st (Hnb nb (list_elem_of_here _ _)) Hinb Hb Hfuel).
      destruct (call nb st) as [[st'|e]|]; [|done..].
      destruct Hcall as [Hb' Hsize].
      destruct (dict_get (lowlinks st') node) as [ln|]; [simpl|done].
      destruct (dict_get (lowlinks st') nb) as [lb|]; [simpl|done].
      specialize (IH (set_lowlink node (ln `min` lb) st') Hrest Hb').
      simpl in IH. specialize (IH ltac:(lia)).
      destruct (visit call node rest _) as [[st''|e]|]; [|done..].
      destruct IH as [? ?]. simpl in *. split; [done|lia].
Qed.

Lemma strongconnect_returns n graph fuel node st :
  graph_bounded n graph →
  (node < n)%nat → indices st !! node = None → indexed_below n st →
  (n ≤ fuel + size (indices st))%nat →
  returned n st (strongconnect fuel graph node st).
Proof.
  intros Hg. revert node st.
  induction fuel as [|fuel IH]; intros node st Hn Hnone Hb Hfuel.
  - pose proof (indexed_below_size n _ (enter_indexed_below n node st Hn Hb)) as Hs.
    rewrite enter_size in Hs by done. lia.
  - simpl.
    pose proof (visit_returns n (strongconnect fuel graph) node
                  (graph_get graph node) (enter node st) fuel) as Hv.
    rewrite enter_size in Hv by done.
    specialize (Hv ltac:(intros; by apply IH)
                   (graph_get_bounded _ _ _ Hg)
                   (enter_indexed_below _ _ _ Hn Hb) ltac:(lia)).
    destruct (visit _ _ _ _) as [[st'|e]|]; [|done..].
    destruct Hv as [Hb' Hsize]. simpl.
    destruct (finish node st') as [st''|e] eqn:Hfin; [|done].
    apply finish_indices in Hfin. unfold indexed_below. rewrite Hfin.
    rewrite enter_size in Hsize by done. split; [done|lia].
Qed.

Lemma tarjan_roots_returns n graph keys st :
  graph_bounded n graph → set_bounded n keys → indexed_below n st →
  returned n st (tarjan_roots n graph keys st).
Proof.
  intros Hg. revert st.
  induction keys as [|node keys IH]; intros st Hkeys Hb; simpl.
  - done.
  - assert (set_bounded n keys) as Hkeys'.
    { intros x Hx. apply Hkeys. by right. }
    destruct (indices st !! node) eqn:Hnode; [by apply IH|].
    pose proof (strongconnect_returns n graph n node st Hg
                  (Hkeys node (list_elem_of_here _ _)) Hnode Hb ltac:(lia)) as Hsc.
    destruct (strongconnect _ _ _ _) as [[st'|e]|]; [|done..].
    destruct Hsc as [Hb' Hsize].
    specialize (IH st' Hkeys' Hb').
    destruct (tarjan_roots _ _ _ _) as [[st''|e]|]; [|done..].
    destruct IH. split; [done|lia].
Qed.

Lemma tarjan_scc_returns (cs : list constraint) :
  ∃ r, _tarjan_scc (length cs) (constraint_graph cs) = Some r.
Proof.
  pose proof (constraint_graph_bounded cs) as Hg.
  pose proof (tarjan_roots_returns (length cs) (constraint_graph cs)
                (constraint_graph cs).*1 tarjan_init Hg) as Hr.
  unfold _tarjan_scc, tarjan_run.
  destruct (tarjan_roots _ _ _ _) as [[st|e]|]; [by eexists..|].
  exfalso. apply Hr.
  - intros k Hk. apply list_elem_of_fmap in Hk as [[k' s] [-> Hin]].
    by destruct (Hg k' s Hin).
  - intros k [? Hk]. simpl in Hk. by rewrite lookup_empty in Hk.
Qed.

(** * The relaxation loop returns *)

Section Termination.
Context {np : Numpy}.
Variable cs : list constraint.

Lemma relax_loop_returns fuel scc seen iteration σ :
  (iteration ≤ iteration_limit)%nat →
  (iteration_limit < iteration + fuel)%nat →
  ∃ r, relax_loop cs fuel scc seen iteration σ = Some r.
Proof.
  revert seen iteration σ.
  induction fuel as [|fuel IH]; intros seen iteration σ Hle Hlt; [lia|].
  simpl. destruct (existsb _ seen); [by eexists|].
  destruct (iteration_limit <? S iteration)%nat eqn:Hcap; [by eexists|].
  apply Nat.ltb_ge in Hcap.
  destruct (relax_pass cs scc σ false) as [[] σ'|e σ']; [|by eexists..].
  apply IH; lia.
Qed.

Lemma relax_returns scc σ : ∃ r, relax cs scc σ = Some r.
Proof.
  unfold relax.
  destruct (relax_loop_returns (S iteration_limit) scc [] 0 σ) as [r ->];
    [lia..|].
  destruct r; by eexists.
Qed.

Lemma process_scc_returns scc σ : ∃ r, process_scc cs scc σ = Some r.
Proof.
  unfold process_scc.
  destruct (_ ≫= _) as [[vars [rows constants]]|e]; [|by eexists].
  destruct (solve _ _ _ _); [by eexists|]. apply relax_returns.
Qed.

Lemma process_sccs_returns l σ : ∃ r, process_sccs cs l σ = Some r.
Proof.
  revert σ. induction l as [|scc l IH]; intros σ; simpl; [by eexists|].
  destruct (process_scc_returns scc σ) as [[[] σ'|e σ'] ->]; [|by eexists].
  apply IH.
Qed.

End Termination.

Lemma propagate_returns {np : Numpy} (self : ConstraintLattice) :
  ∃ r, propagate self = Some r.
Proof.
  unfold propagate.
  destruct (tarjan_scc_returns (constraints self)) as [[l|e] ->].
  - apply process_sccs_returns.
  - by eexists.
Qed.

(** * The damped update *)

Lemma SFeqb_finite s m e s' m' e' :
  SFeqb (S754_finite s m e) (S754_finite s' m' e') = true →
  s = s' ∧ m = m' ∧ e = e'.
Proof.
  unfold SFeqb, SFcompare.
  destruct s, s'; try done;
    destruct (Z.compare e e') eqn:He; try done;
    destruct (Pos.compare_cont Eq m m') eqn:Hm; try done;
    apply Z.compare_eq in He; apply Pos.compare_eq in Hm; by subst.
Qed.

(** A damped value equal to the old one is within the tolerance. *)
Lemma damped_equal_within (old new : float) :
  let updated_val := (old + 0.5 * (new - old))%float in
  PrimFloat.eqb updated_val old = true →
  (abs (updated_val - old) <=? tolerance)%float = true.
Proof.
  intros updated_val Heq.
  rewrite FloatAxioms.leb_spec, FloatAxioms.abs_spec, FloatAxioms.sub_spec.
  rewrite FloatAxioms.eqb_spec in Heq.
  destruct (Prim2SF old) as [s|s| |s m e] eqn:Hold.
  - destruct (Prim2SF updated_val) as [s'|s'| |s' m' e'];
      try (by first [destruct s'|idtac]; vm_compute in Heq).
    by destruct s, s'; vm_compute.
  - unfold updated_val in Heq.
    rewrite FloatAxioms.add_spec, FloatAxioms.mul_spec, FloatAxioms.sub_spec,
      Hold in Heq.
    destruct (Prim2SF new) as [sn|sn| |sn mn en], s; try destruct sn;
      by vm_compute in Heq.
  - by destruct (Prim2SF updated_val).
  - destruct (Prim2SF updated_val) as [s'|s'| |s' m' e'];
      try (by first [destruct s'|idtac]; destruct s; vm_compute in Heq).
    apply SFeqb_finite in Heq as (-> & -> & ->).
    unfold SF64sub, SFsub. rewrite Z.sub_diag. by vm_compute.
Qed.

(** * The result monad *)

Lemma foldM_invariant {A B} (P : B → Prop) (f : B → A → result B)
    (l : list A) (b r : B) :
  P b → (∀ b a b', a ∈ l → P b → f b a = Ok b' → P b') →
  foldM f b l = Ok r → P r.
Proof.
  revert b. induction l as [|a l IH]; intros b Hb Hf; simpl.
  - by intros [= <-].
  - destruct (f b a) as [b'|e] eqn:Hfa; [simpl|done].
    apply IH.
    + eapply Hf; [left|done..].
    + intros b0 a0 b0' Ha0. apply Hf. by right.
Qed.

Lemma mapM_Ok {A B} (f : A → result B) (l : list A) (ys : list B) :
  mapM f l = Ok ys → Forall2 (λ x y, f x = Ok y) l ys.
Proof.
  revert ys. induction l as [|x l IH]; intros ys; simpl.
  - intros [= <-]. constructor.
  - destruct (f x) as [y|e] eqn:Hfx; [simpl|done].
    destruct (mapM f l) as [k|e]; [simpl|done].
    intros [= <-]. constructor; [done|by apply IH].
Qed.

(** * Sorted sets of names *)

Lemma elem_of_sorted_set (x : string) (l : list string) :
  x ∈ sorted_set l ↔ x ∈ l.
Proof.
  unfold sorted_set. rewrite merge_sort_Permutation. apply elem_of_remove_dups.
Qed.

Lemma NoDup_sorted_set (l : list string) : NoDup (sorted_set l).
Proof.
  unfold sorted_set. rewrite merge_sort_Permutation. apply NoDup_remove_dups.
Qed.

Section StepA.
Context {np : Numpy}.
Variable cs : list constraint.

(** The variables of a component are the registered outputs of its
    relations. *)
Lemma elem_of_variables σ scc vars node :
  variables cs σ scc = Ok vars →
  node ∈ vars ↔
    is_Some (σ !! node) ∧
    ∃ idx c, idx ∈ scc ∧ cs !! idx = Some c ∧ node ∈ outputs c.
Proof.
  unfold variables.
  destruct (mapM _ scc) as [outs|e] eqn:Houts; [simpl|done].
  intros [= <-]. apply mapM_Ok in Houts.
  rewrite elem_of_sorted_set, list_elem_of_filter, list_elem_of_join.
  apply and_iff_compat_l. split.
  - intros (o & Hnode & Ho).
    apply list_elem_of_lookup in Ho as [i Ho].
    destruct (Forall2_lookup_r _ _ _ _ _ Houts Ho) as (idx & Hidx & Hc).
    unfold py_index in Hc. destruct (cs !! idx) as [c|] eqn:Hcs; [|done].
    simpl in Hc. injection Hc as <-.
    exists idx, c. split; [|done]. apply list_elem_of_lookup. eauto.
  - intros (idx & c & Hidx & Hc & Hnode).
    apply list_elem_of_lookup in Hidx as [i Hidx].
    destruct (Forall2_lookup_l _ _ _ _ _ Houts Hidx) as (o & Ho & Ho').
    unfold py_index in Ho'. rewrite Hc in Ho'. simpl in Ho'.
    injection Ho' as <-. exists (outputs c). split; [done|].
    apply list_elem_of_lookup. eauto.
Qed.

Lemma NoDup_variables σ scc vars :
  variables cs σ scc = Ok vars → NoDup vars.
Proof.
  unfold variables. destruct (mapM _ scc) as [outs|e]; [simpl|done].
  intros [= <-]. apply NoDup_sorted_set.
Qed.

(** Every row of the linear system has one coefficient per variable. *)
Lemma linearize_input_length c vars baseline base_output out_pos eqn ii eqn' :
  linearize_input c vars baseline base_output out_pos eqn ii = Ok eqn' →
  length eqn'.1 = length eqn.1.
Proof.
  unfold linearize_input. destruct (index_of ii.2 vars) as [col|].
  - destruct (_ <$> func c _) as [po|]; [simpl|done].
    destruct (py_index po out_pos) as [p|]; [simpl|done].
    destruct (py_index base_output out_pos) as [b|]; [simpl|done].
    destruct (py_sub p b) as [d|]; [simpl|done].
    destruct (py_float d) as [delta|]; [simpl|done].
    destruct (py_index baseline ii.1) as [x|]; [simpl|done].
    intros [= <-]. simpl. apply length_alter.
  - by intros [= <-].
Qed.

Lemma linearize_output_width c vars baseline base_output sys oo sys' :
  rows_of_width (length vars) sys →
  linearize_output c vars baseline base_output sys oo = Ok sys' →
  rows_of_width (length vars) sys'.
Proof.
  intros Hsys. unfold linearize_output.
  destruct (index_of oo.2 vars) as [col|]; [|by intros [= <-]].
  destruct (py_index base_output oo.1) as [bo|]; [simpl|done].
  destruct (py_float bo) as [constant|]; [simpl|done].
  destruct (foldM _ _ _) as [eqn|] eqn:Heqn; [simpl|done].
  intros [= <-] row. simpl. rewrite elem_of_app, list_elem_of_singleton.
  intros [Hrow| ->]; [by apply Hsys|].
  revert Heqn. apply (foldM_invariant (λ eqn, length eqn.1 = length vars)).
  - simpl. by rewrite length_insert, length_replicate.
  - intros b a b' _ Hb Hstep.
    apply linearize_input_length in Hstep. congruence.
Qed.

Lemma linearize_width σ vars scc sys :
  linearize cs σ vars scc = Ok sys → rows_of_width (length vars) sys.
Proof.
  unfold linearize. destruct vars as [|v vars].
  { intros [= <-] row Hrow. by apply elem_of_nil in Hrow. }
  generalize (v :: vars). clear v vars. intros vars.
  apply foldM_invariant.
  - intros row Hrow. by apply elem_of_nil in Hrow.
  - intros sys0 idx sys1 _ Hsys0. unfold linearize_constraint.
    destruct (py_index cs idx) as [c|]; [simpl|done].
    destruct (mapM _ (inputs c)) as [baseline|]; [simpl|done].
    destruct (_ <$> func c _) as [base_output|]; [simpl|done].
    apply foldM_invariant; [done|].
    intros b a b' _. apply linearize_output_width.
Qed.

(** Writing the solution back. *)
Lemma assign_solution_spec (vi : list (nat * string)) solution σ :
  NoDup vi.*2 →
  (∀ idx node, (idx, node) ∈ vi → is_Some (solution !! idx)) →
  ∃ σ', assign_solution vi solution σ = Return () σ' ∧
    (∀ idx node, (idx, node) ∈ vi →
       ∃ x, solution !! idx = Some x ∧ σ' !! node = Some (VNum (np_round6 x))) ∧
    (∀ node, node ∉ vi.*2 → σ' !! node = σ !! node).
Proof.
  revert σ. induction vi as [|[idx node] vi IH]; intros σ Hnd Hsol; simpl.
  - exists σ. split; [done|]. split; [|done].
    intros ?? Hin. by apply elem_of_nil in Hin.
  - apply NoDup_cons in Hnd as [Hnode Hnd].
    destruct (Hsol idx node) as [x Hx]; [left|]. rewrite Hx.
    destruct (IH (<[node := VNum (np_round6 x)]> σ) Hnd) as (σ' & -> & Hin & Hout).
    { intros idx' node' Hin. apply (Hsol idx' node'). by right. }
    exists σ'. split; [done|]. split.
    + intros idx' node'. rewrite elem_of_cons. intros [[= -> ->]|Hin'].
      * exists x. split; [done|]. rewrite Hout by done. apply lookup_insert_eq.
      * by apply Hin.
    + intros node'. simpl. rewrite not_elem_of_cons. intros [Hne Hnin].
      rewrite Hout by done. by rewrite lookup_insert_ne.
Qed.

Lemma fmap_snd_enumerate {A} (l : list A) : (enumerate l).*2 = l.
Proof.
  unfold enumerate. apply list_eq. intros i.
  rewrite list_lookup_fmap, list_lookup_imap. by destruct (l !! i).
Qed.

(** Step A when the solution is accepted. *)
Lemma solve_accepted vars rows constants solution σ :
  NoDup vars → rows ≠ [] → rows_of_width (length vars) (rows, constants) →
  matrix_rank rows = Some (length vars) →
  lstsq rows constants = Some solution →
  ∃ σ', solve vars rows constants σ = Some (Return () σ') ∧
    (∀ idx node, vars !! idx = Some node →
       ∃ x, solution !! idx = Some x ∧ σ' !! node = Some (VNum (np_round6 x))) ∧
    (∀ node, node ∉ vars → σ' !! node = σ !! node).
Proof.
  intros Hnd Hrows Hwidth Hrank Hsol. unfold solve.
  destruct rows as [|row rows]; [done|].
  rewrite Hrank, Nat.eqb_refl, Hsol.
  assert (length solution = length vars) as Hlen.
  { rewrite (lstsq_columns _ _ _ row Hsol) by left. apply Hwidth. left. }
  destruct (assign_solution_spec (enumerate vars) solution σ)
    as (σ' & -> & Hin & Hout).
  - by rewrite fmap_snd_enumerate.
  - intros idx node Hidx. apply elem_of_enumerate, lookup_lt_Some in Hidx.
    apply lookup_lt_is_Some. lia.
  - exists σ'. split; [done|]. split.
    + intros idx node Hidx. by apply Hin, elem_of_enumerate.
    + intros node Hnode. apply Hout. by rewrite fmap_snd_enumerate.
Qed.

End StepA.

(** * Steps A and B on one component *)

Section Component.
Context {np : Numpy}.
Variable cs : list constraint.

Lemma process_scc_unsolved σ scc :
  step_a_unsolved cs σ scc → process_scc cs scc σ = relax cs scc σ.
Proof.
  intros (vars & rows & constants & Hvars & Hlin & Hsolve).
  unfold process_scc. rewrite Hvars. simpl. rewrite Hlin. simpl.
  by rewrite Hsolve.
Qed.

Lemma relax_first_pass_throws scc σ e σ' :
  relax_pass cs scc σ false = Throw e σ' →
  relax cs scc σ = Some (Throw e σ').
Proof. intros Hpass. unfold relax. simpl. by rewrite Hpass. Qed.

Lemma relax_first_pass_unchanged scc σ σ' :
  relax_pass cs scc σ false = Return false σ' →
  relax cs scc σ = Some (Return () (round_nodes σ')).
Proof. intros Hpass. unfold relax. simpl. by rewrite Hpass. Qed.

Lemma relax_rounds scc σ σ' :
  relax cs scc σ = Some (Return () σ') →
  ∀ k x, σ' !! k = Some (VNum x) → ∃ y, x = py_round6 y.
Proof.
  unfold relax.
  destruct (relax_loop _ _ _ _ _ _) as [[[] σ''|e σ'']|]; [|done..].
  intros [= <-] k x. unfold round_nodes. rewrite lookup_fmap.
  destruct (σ'' !! k) as [[|y|s]|]; [done| |done..].
  simpl. intros [= <-]. by exists y.
Qed.

Lemma relax_pass_app pre post σ changed :
  relax_pass cs (pre ++ post) σ changed =
  match relax_pass cs pre σ changed with
  | Return changed' σ' => relax_pass cs post σ' changed'
  | Throw e σ' => Throw e σ'
  end.
Proof.
  revert σ changed. induction pre as [|idx pre IH]; intros σ changed; simpl.
  - done.
  - by destruct (relax_constraint cs idx σ changed).
Qed.

Lemma process_sccs_app before after σ :
  process_sccs cs (before ++ after) σ =
  match process_sccs cs before σ with
  | Some (Return _ σ') => process_sccs cs after σ'
  | other => other
  end.
Proof.
  revert σ. induction before as [|scc before IH]; intros σ; simpl.
  - done.
  - by destruct (process_scc cs scc σ) as [[[] σ'|e σ']|].
Qed.

Lemma read_missing σ ins i :
  i ∈ ins → σ !! i = None →
  ∃ j, mapM (read_node σ) ins = Raise (KeyError j) ∧ j ∈ ins ∧ σ !! j = None.
Proof.
  induction ins as [|k ins IH]; intros Hi Hnone.
  - by apply elem_of_nil in Hi.
  - destruct (σ !! k) as [v|] eqn:Hk.
    + apply elem_of_cons in Hi as [->|Hi]; [congruence|].
      destruct (IH Hi Hnone) as (j & Hm & Hj & Hjn).
      exists j. split; [|split; [by right|done]].
      change (mapM (read_node σ) (k :: ins))
        with (y ← read_node σ k; l ← mapM (read_node σ) ins; mret (y :: l)).
      assert (read_node σ k = Ok v) as -> by (unfold read_node; by rewrite Hk).
      simpl. by rewrite Hm.
    + exists k. split; [|split; [left|done]].
      change (mapM (read_node σ) (k :: ins))
        with (y ← read_node σ k; l ← mapM (read_node σ) ins; mret (y :: l)).
      assert (read_node σ k = Raise (KeyError k)) as ->
        by (unfold read_node; by rewrite Hk).
      done.
Qed.

End Component.

(** * The order inside a component *)

Lemma discovered_later_mono (m m' : gmap nat nat) (l : list nat) :
  m ⊆ m' →
  StronglySorted (discovered_later m) l → StronglySorted (discovered_later m') l.
Proof.
  intros Hsub. induction 1 as [|a l Hl IH Ha]; constructor; [done|].
  eapply Forall_impl; [done|]. intros b (i & j & Hi & Hj & Hlt).
  exists i, j. eauto using lookup_weaken.
Qed.

Lemma pop_ordered_init : pop_ordered tarjan_init.
Proof.
  split; simpl.
  - intros k i. by rewrite lookup_empty.
  - intros k Hk. by apply elem_of_nil in Hk.
  - constructor.
  - intros scc Hscc. by apply elem_of_nil in Hscc.
Qed.

Lemma pop_ordered_enter node st :
  indices st !! node = None → pop_ordered st → pop_ordered (enter node st).
Proof.
  intros Hnone [Hbelow Hidx Hstack Hsccs].
  assert (indices st ⊆ <[node := index st]> (indices st)) as Hsub
    by by apply insert_subseteq.
  split; simpl.
  - intros k i. destruct (decide (node = k)) as [->|Hne].
    + rewrite lookup_insert_eq. intros [= <-]. lia.
    + rewrite lookup_insert_ne by done. intros Hk%Hbelow. lia.
  - intros k. rewrite elem_of_cons. intros [->|Hk].
    + by rewrite lookup_insert_eq.
    + destruct (Hidx k Hk) as [i Hi]. exists i. by eapply lookup_weaken.
  - constructor; [by eapply discovered_later_mono|].
    apply Forall_forall. intros k Hk.
    destruct (Hidx k Hk) as [j Hj].
    exists (index st), j. rewrite lookup_insert_eq.
    split; [done|]. split; [by eapply lookup_weaken|by eapply Hbelow].
  - intros scc Hscc. eapply discovered_later_mono; [done|by apply Hsccs].
Qed.

Lemma pop_ordered_set_lowlink node low st :
  pop_ordered st → pop_ordered (set_lowlink node low st).
Proof. by intros []. Qed.

Lemma pop_scc_split node stk ons acc stk' ons' scc :
  pop_scc node stk ons acc = Ok (stk', ons', scc) →
  ∃ pre, stk = pre ++ stk' ∧ scc = acc ++ pre.
Proof.
  revert ons acc. induction stk as [|w stk IH]; intros ons acc; simpl; [done|].
  destruct (w =? node)%nat.
  - intros [= <- <- <-]. by exists [w].
  - intros (pre & -> & ->)%IH. exists (w :: pre).
    by rewrite <- app_assoc.
Qed.

Lemma pop_ordered_finish node st st' :
  finish node st = Ok st' → pop_ordered st → pop_ordered st'.
Proof.
  unfold finish. destruct (dict_get (lowlinks st) node) as [low|]; [simpl|done].
  destruct (dict_get (indices st) node) as [idx|]; [simpl|done].
  destruct (low =? idx)%nat; [|by intros [= <-]].
  destruct (pop_scc _ _ _ _) as [[[stk ons] scc]|] eqn:Hpop; [simpl|done].
  intros [= <-] [Hbelow Hidx Hstack Hsccs].
  apply pop_scc_split in Hpop as (pre & Hstk & ->). simpl in *.
  rewrite Hstk in Hidx, Hstack. split; simpl.
  - done.
  - intros k Hk. apply Hidx, elem_of_app. by right.
  - by eapply StronglySorted_app_1_r.
  - intros scc. rewrite elem_of_app, list_elem_of_singleton.
    intros [Hscc| ->]; [by apply Hsccs|].
    by eapply StronglySorted_app_1_l.
Qed.

Lemma pop_ordered_visit call node neighbors st st' :
  (∀ nb st0 st1, indices st0 !! nb = None → pop_ordered st0 →
     call nb st0 = Some (Ok st1) → pop_ordered st1) →
  pop_ordered st →
  visit call node neighbors st = Some (Ok st') → pop_ordered st'.
Proof.
  intros Hcall. revert st.
  induction neighbors as [|nb rest IH]; intros st Hst; simpl.
  - by intros [= <-].
  - destruct (indices st !! nb) as [inb|] eqn:Hnb.
    + destruct (default false (on_stack st !! nb)); [|by apply IH].
      destruct (dict_get (lowlinks st) node) as [ln|]; [|done].
      by apply IH, pop_ordered_set_lowlink.
    + destruct (call nb st) as [[st1|e]|] eqn:Hc; [|done..].
      apply (Hcall nb st st1 Hnb Hst) in Hc.
      destruct (dict_get (lowlinks st1) node) as [ln|]; [simpl|done].
      destruct (dict_get (lowlinks st1) nb) as [lb|]; [simpl|done].
      by apply IH, pop_ordered_set_lowlink.
Qed.

Lemma pop_ordered_strongconnect fuel graph node st st' :
  indices st !! node = None → pop_ordered st →
  strongconnect fuel graph node st = Some (Ok st') → pop_ordered st'.
Proof.
  revert node st st'.
  induction fuel as [|fuel IH]; intros node st st' Hnone Hst; simpl; [done|].
  destruct (visit _ _ _ _) as [[st1|e]|] eqn:Hvisit; [|done..].
  intros [= Hfin]. eapply pop_ordered_finish; [done|].
  eapply pop_ordered_visit; [|by apply pop_ordered_enter|done].
  intros nb st0 st2. apply IH.
Qed.

Lemma pop_ordered_roots fuel graph keys st st' :
  pop_ordered st →
  tarjan_roots fuel graph keys st = Some (Ok st') → pop_ordered st'.
Proof.
  revert st. induction keys as [|node keys IH]; intros st Hst; simpl.
  - by intros [= <-].
  - destruct (indices st !! node) eqn:Hnode; [by apply IH|].
    destruct (strongconnect _ _ _ _) as [[st1|e]|] eqn:Hsc; [|done..].
    apply IH. by eapply pop_ordered_strongconnect.
Qed.

Local Close Scope Z_scope.

(** * The relation graph, edge by edge *)

Lemma elem_of_dep_graph_inputs idx g ins name x :
  x ∈ dependents (dep_graph_inputs idx g ins) name ↔
  x ∈ dependents g name ∨ (x = idx ∧ name ∈ ins).
Proof.
  revert g. induction ins as [|i ins IH]; intros g; simpl.
  - rewrite elem_of_nil. tauto.
  - unfold dep_graph_inputs in *. simpl. rewrite IH. unfold dependents.
    rewrite elem_of_cons. destruct (decide (i = name)) as [->|Hne].
    + rewrite lookup_insert_eq. simpl. rewrite elem_of_set_add. tauto.
    + rewrite lookup_insert_ne by done.
      split; [intros [?|[? ?]]; auto|intros [?|[? [?|?]]]; auto; congruence].
Qed.

Lemma elem_of_dep_graph_fold (l : list (nat * constraint)) g name x :
  x ∈ dependents
        (foldl (λ g ic, dep_graph_inputs ic.1 g (inputs ic.2)) g l) name ↔
  x ∈ dependents g name ∨ ∃ c, (x, c) ∈ l ∧ name ∈ inputs c.
Proof.
  revert g. induction l as [|[i c] l IH]; intros g; simpl.
  - split; [auto|]. intros [?|(c & Hc & _)]; [done|]. by apply elem_of_nil in Hc.
  - rewrite IH, elem_of_dep_graph_inputs. simpl. split.
    + intros [[?|[-> ?]]|(c' & ? & ?)]; [by left| |].
      * right. exists c. split; [left|done].
      * right. exists c'. split; [by right|done].
    + intros [?|(c' & Hc' & ?)]; [by left; left|].
      apply elem_of_cons in Hc' as [[= -> ->]|?].
      * left. by right.
      * right. by exists c'.
Qed.

Lemma elem_of_dep_graph cs name idx :
  idx ∈ dependents (dep_graph cs) name ↔
  ∃ c, cs !! idx = Some c ∧ name ∈ inputs c.
Proof.
  unfold dep_graph.
  rewrite (elem_of_dep_graph_fold (enumerate cs) ∅ name idx).
  unfold dependents at 1. rewrite lookup_empty. simpl. rewrite elem_of_nil.
  split.
  - intros [[]|(c & Hc & Hin)]. exists c. by rewrite <- elem_of_enumerate.
  - intros (c & Hc & Hin). right. exists c. by rewrite elem_of_enumerate.
Qed.

(** [graph_add] and [graph_get] *)

Lemma elem_of_graph_add idx dep g k x :
  x ∈ graph_get (graph_add idx dep g) k ↔
  x ∈ graph_get g k ∨ (k = idx ∧ x = dep).
Proof.
  induction g as [|[k' s] g IH]; simpl.
  - destruct (idx =? k)%nat eqn:Hk.
    + apply Nat.eqb_eq in Hk as ->. rewrite list_elem_of_singleton, elem_of_nil.
      tauto.
    + apply Nat.eqb_neq in Hk. rewrite elem_of_nil. split; [done|].
      intros [[]|[? ?]]. congruence.
  - destruct (k' =? idx)%nat eqn:Hk'; simpl.
    + apply Nat.eqb_eq in Hk' as ->. destruct (idx =? k)%nat eqn:Hk.
      * apply Nat.eqb_eq in Hk as ->. rewrite elem_of_set_add. tauto.
      * apply Nat.eqb_neq in Hk. split; [auto|]. intros [?|[? ?]]; [done|].
        congruence.
    + apply Nat.eqb_neq in Hk'. destruct (k' =? k)%nat eqn:Hk.
      * apply Nat.eqb_eq in Hk as ->. split; [auto|].
        intros [?|[? ?]]; [done|]. congruence.
      * done.
Qed.

Lemma elem_of_graph_add_all idx deps g k x :
  x ∈ graph_get (foldl (λ g d, graph_add idx d g) g deps) k ↔
  x ∈ graph_get g k ∨ (k = idx ∧ x ∈ deps).
Proof.
  revert g. induction deps as [|d deps IH]; intros g; simpl.
  - rewrite elem_of_nil. tauto.
  - rewrite IH, elem_of_graph_add, elem_of_cons. tauto.
Qed.

Lemma elem_of_graph_outputs dg idx outs g k x :
  x ∈ graph_get
        (foldl (λ g output_id,
                  foldl (λ g d, graph_add idx d g) g (default [] (dg !! output_id)))
               g outs) k ↔
  x ∈ graph_get g k ∨ (k = idx ∧ ∃ name, name ∈ outs ∧ x ∈ dependents dg name).
Proof.
  revert g. induction outs as [|o outs IH]; intros g; simpl.
  - split; [auto|]. intros [?|[_ (name & Hn & _)]]; [done|].
    by apply elem_of_nil in Hn.
  - rewrite IH, elem_of_graph_add_all. split.
    + intros [[?|[-> ?]]|[-> (name & ? & ?)]]; [by left|right..].
      * split; [done|]. exists o. split; [left|done].
      * split; [done|]. exists name. split; [by right|done].
    + intros [?|[-> (name & Hn & ?)]]; [by left; left|].
      apply elem_of_cons in Hn as [->|?].
      * left. by right.
      * right. split; [done|]. by exists name.
Qed.

Lemma elem_of_graph_of dg g l k x :
  x ∈ graph_get (graph_of dg g l) k ↔
  x ∈ graph_get g k ∨
  ∃ c name, (k, c) ∈ l ∧ name ∈ outputs c ∧ x ∈ dependents dg name.
Proof.
  revert g. induction l as [|[i c] l IH]; intros g.
  - simpl. split; [auto|]. intros [?|(c & name & Hc & _)]; [done|].
    by apply elem_of_nil in Hc.
  - unfold graph_of in *. simpl. rewrite IH, elem_of_graph_outputs. split.
    + intros [[?|[-> (name & ? & ?)]]|(c' & name & ? & ? & ?)]; [by left|right..].
      * exists c, name. split; [left|done].
      * exists c', name. split; [by right|done].
    + intros [?|(c' & name & Hc' & ? & ?)]; [by left; left|].
      apply elem_of_cons in Hc' as [[= -> ->]|?].
      * left. right. split; [done|]. by exists name.
      * right. by exists c', name.
Qed.

Lemma elem_of_constraint_graph cs i j :
  j ∈ graph_get (constraint_graph cs) i ↔
  ∃ ci cj name,
    cs !! i = Some ci ∧ name ∈ outputs ci ∧
    cs !! j = Some cj ∧ name ∈ inputs cj.
Proof.
  change (constraint_graph cs) with (graph_of (dep_graph cs) [] (enumerate cs)).
  rewrite elem_of_graph_of. simpl. rewrite elem_of_nil. split.
  - intros [[]|(ci & name & Hci & Hout & Hdep)].
    apply elem_of_enumerate in Hci.
    apply elem_of_dep_graph in Hdep as (cj & Hcj & Hin).
    by exists ci, cj, name.
  - intros (ci & cj & name & Hci & Hout & Hcj & Hin). right.
    exists ci, name. split; [by apply elem_of_enumerate|]. split; [done|].
    apply elem_of_dep_graph. by exists cj.
Qed.


(** * The keys of the relation graph *)

Lemma set_add_nonempty x s : set_add x s ≠ [].
Proof. destruct s as [|y s]; simpl; [done|]. by repeat case_match. Qed.

Lemma elem_of_graph_add_keys idx dep g k :
  k ∈ (graph_add idx dep g).*1 ↔ k ∈ g.*1 ∨ k = idx.
Proof.
  induction g as [|[k' s] g IH]; simpl.
  - rewrite list_elem_of_singleton, elem_of_nil. tauto.
  - destruct (k' =? idx)%nat eqn:Hk'; simpl.
    + apply Nat.eqb_eq in Hk' as ->. rewrite elem_of_cons. tauto.
    + rewrite !elem_of_cons, IH. tauto.
Qed.

Lemma graph_add_keys_sorted idx dep g :
  StronglySorted lt g.*1 → (∀ k, k ∈ g.*1 → (k ≤ idx)%nat) →
  StronglySorted lt (graph_add idx dep g).*1.
Proof.
  induction g as [|[k' s] g IH]; simpl; intros Hs Hle.
  - repeat constructor.
  - apply StronglySorted_inv in Hs as [Hs Hall].
    destruct (k' =? idx)%nat eqn:Hk'; simpl; [by constructor|].
    apply Nat.eqb_neq in Hk'. constructor.
    + apply IH; [done|]. intros k Hk. apply Hle. by right.
    + apply Forall_forall. intros k [Hk| ->]%elem_of_graph_add_keys.
      * by eapply Forall_forall in Hall.
      * specialize (Hle k' ltac:(left)). lia.
Qed.

Lemma graph_add_keys_have_edges idx dep g :
  keys_have_edges g → keys_have_edges (graph_add idx dep g).
Proof.
  induction g as [|[k' s] g IH]; simpl; intros Hg k s0.
  - by intros [= -> ->]%list_elem_of_singleton.
  - destruct (k' =? idx)%nat.
    + intros [[= -> ->]|Hin]%elem_of_cons; [apply set_add_nonempty|].
      apply (Hg k s0). by right.
    + intros [[= -> ->]|Hin]%elem_of_cons; [apply (Hg k' s); left|].
      apply (IH ltac:(intros k1 s1 Hin1; apply (Hg k1 s1); by right) k s0 Hin).
Qed.

Lemma graph_add_filled idx dep g :
  graph_filled_to idx g → graph_filled_to idx (graph_add idx dep g).
Proof.
  intros (Hs & Hle & Hne). split; [|split].
  - by apply graph_add_keys_sorted.
  - intros k [Hk| ->]%elem_of_graph_add_keys; [by apply Hle|done].
  - by apply graph_add_keys_have_edges.
Qed.

Lemma graph_of_filled dg l g :
  StronglySorted lt l.*1 →
  StronglySorted lt g.*1 → keys_have_edges g →
  (∀ k i, k ∈ g.*1 → i ∈ l.*1 → (k < i)%nat) →
  StronglySorted lt (graph_of dg g l).*1 ∧ keys_have_edges (graph_of dg g l).
Proof.
  revert g. induction l as [|[i c] l IH]; intros g Hl Hg Hne Hlt; [done|].
  simpl in Hl. apply StronglySorted_inv in Hl as [Hl Hi].
  unfold graph_of in *. simpl.
  set (g' := foldl _ g (outputs c)).
  assert (graph_filled_to i g') as (Hs' & Hle' & Hne').
  { unfold g'. apply foldl_invariant.
    - split; [done|]. split; [|done].
      intros k Hk. apply Nat.lt_le_incl, (Hlt k i Hk). left.
    - intros g1 o _ Hg1. apply foldl_invariant; [done|].
      intros g2 d _ Hg2. by apply graph_add_filled. }
  apply IH; try done.
  intros k i' Hk Hi'. apply Hle' in Hk.
  eapply Forall_forall in Hi; [|done]. lia.
Qed.

Lemma enumerate_indices {A} (l : list A) : (enumerate l).*1 = seq 0 (length l).
Proof.
  apply list_eq. intros i. unfold enumerate.
  rewrite list_lookup_fmap, list_lookup_imap.
  destruct (l !! i) as [a|] eqn:Hi; simpl.
  - symmetry. apply lookup_seq. split; [done|]. by eapply lookup_lt_Some.
  - symmetry. apply lookup_seq_ge. by apply lookup_ge_None.
Qed.

Lemma seq_sorted a n : StronglySorted lt (seq a n).
Proof.
  revert a. induction n as [|n IH]; intros a; simpl; constructor; [done|].
  apply Forall_forall. intros x Hx%elem_of_seq. lia.
Qed.

Lemma elem_of_keys_graph_get g k :
  keys_have_edges g → k ∈ g.*1 ↔ graph_get g k ≠ [].
Proof.
  induction g as [|[k' s] g IH]; simpl; intros Hne.
  - rewrite elem_of_nil. tauto.
  - destruct (k' =? k)%nat eqn:Hk.
    + apply Nat.eqb_eq in Hk as ->. split; [|left].
      intros _. apply (Hne k s). left.
    + apply Nat.eqb_neq in Hk. rewrite elem_of_cons, IH.
      * split; [intros [?|?]; [congruence|done]|auto].
      * intros k1 s1 Hin. apply (Hne k1 s1). by right.
Qed.

Lemma constraint_graph_keys cs :
  StronglySorted lt (constraint_graph cs).*1 ∧
  keys_have_edges (constraint_graph cs).
Proof.
  change (constraint_graph cs) with (graph_of (dep_graph cs) [] (enumerate cs)).
  apply graph_of_filled.
  - rewrite enumerate_indices. apply seq_sorted.
  - constructor.
  - intros k s Hin. by apply elem_of_nil in Hin.
  - intros k i Hk. by apply elem_of_nil in Hk.
Qed.


(** * What Tarjan's pass keeps *)

Lemma stack_index_inj st a b i :
  pop_ordered st → a ∈ stack st → b ∈ stack st →
  indices st !! a = Some i → indices st !! b = Some i → a = b.
Proof.
  intros Hord Ha Hb Hia Hib. pose proof (stack_ordered st Hord) as Hs.
  apply list_elem_of_split in Ha as (l1 & l2 & Hst). rewrite Hst in Hb, Hs.
  apply elem_of_app in Hb as [Hb|[->|Hb]%elem_of_cons]; [|done|].
  - destruct (StronglySorted_app_1_elem_of _ _ _ b a Hs Hb)
      as (i1 & i2 & H1 & H2 & Hlt); [left|]. simplify_eq. lia.
  - rewrite (cons_middle a), (assoc_L (++)) in Hs.
    destruct (StronglySorted_app_1_elem_of _ _ _ a b Hs) as
      (i1 & i2 & H1 & H2 & Hlt); [apply elem_of_app; right; left|done|].
    simplify_eq. lia.
Qed.

Lemma tarjan_inv_init g : tarjan_inv g tarjan_init.
Proof.
  split; simpl.
  - apply pop_ordered_init.
  - intros k [? Hk]. by rewrite lookup_empty in Hk.
  - intros k. rewrite lookup_empty, elem_of_nil. split; [done|tauto].
  - constructor.
  - intros k. rewrite lookup_empty, elem_of_nil.
    split; [by intros [? ?]|done].
  - intros k Hk. by apply elem_of_nil in Hk.
  - intros k [? Hk]. by rewrite lookup_empty in Hk.
  - intros n S v w Hn. by rewrite lookup_nil in Hn.
  - intros [|??] ??? Hst; discriminate Hst.
  - intros x w l Hx. by apply elem_of_nil in Hx.
  - intros S x y HS. by apply elem_of_nil in HS.
  - intros S HS. by apply elem_of_nil in HS.
Qed.

Lemma tarjan_inv_enter g node st :
  indices st !! node = None → graph_node g node →
  (∀ a, a ∈ stack st → reaches g a node) →
  tarjan_inv g st → tarjan_inv g (enter node st).
Proof.
  intros Hnone Hsrc Hreach [Hord Hlow Hons Hnd Hidx Hls Hsrcs Hcl Hsr Hlr Hcon Hnonempty].
  assert (node ∉ stack st ++ mjoin (sccs st)) as Hfresh.
  { intros Hin%Hidx. rewrite Hnone in Hin. by destruct Hin. }
  split; simpl.
  - by apply pop_ordered_enter.
  - intros k. destruct (decide (node = k)) as [->|Hne].
    + by rewrite !lookup_insert_eq.
    + rewrite !lookup_insert_ne by done. apply Hlow.
  - intros k. destruct (decide (node = k)) as [->|Hne].
    + rewrite lookup_insert_eq. split; [left|done].
    + rewrite lookup_insert_ne, elem_of_cons by done. rewrite Hons.
      split; [auto|]. by intros [?|?].
  - by constructor.
  - intros k. destruct (decide (node = k)) as [->|Hne].
    + rewrite lookup_insert_eq. split; [left|by eexists].
    + rewrite lookup_insert_ne, elem_of_cons by done. rewrite Hidx.
      split; [auto|]. by intros [?|?].
  - intros k [->|Hk]%elem_of_cons.
    + exists (index st), (index st), node. rewrite !lookup_insert_eq.
      repeat split; try done. left.
    + destruct (Hls k Hk) as (l & ik & w & Hl & Hik & Hle & Hw & Hiw).
      assert (k ≠ node) as Hkn.
      { intros ->. apply Hfresh, elem_of_app. by left. }
      assert (w ≠ node) as Hwn.
      { intros ->. apply Hfresh, elem_of_app. by left. }
      exists l, ik, w. rewrite !lookup_insert_ne by done.
      repeat split; try done. by right.
  - intros k. destruct (decide (node = k)) as [->|Hne]; [done|].
    rewrite lookup_insert_ne by done. apply Hsrcs.
  - done.
  - intros [|c pre] a post b Hst Hb; [by apply elem_of_nil in Hb|].
    injection Hst as <- Hst.
    apply elem_of_cons in Hb as [->|Hb]; [|by eapply Hsr].
    apply Hreach. rewrite Hst. apply elem_of_app. right. left.
  - intros x w l Hx Hw.
    assert (∀ k, k ∈ stack st → k ≠ node) as Hold.
    { intros k Hk ->. apply Hfresh, elem_of_app. by left. }
    apply elem_of_cons in Hx as [->|Hx].
    + rewrite lookup_insert_eq. intros [= <-].
      apply elem_of_cons in Hw as [->|Hw]; [done|].
      rewrite lookup_insert_ne by (symmetry; by apply Hold).
      intros Hiw%(indices_below st Hord). lia.
    + rewrite lookup_insert_ne by (symmetry; by apply Hold). intros Hl.
      apply elem_of_cons in Hw as [->|Hw].
      * rewrite lookup_insert_eq. intros [= <-].
        destruct (Hls x Hx) as (l' & ik & w' & Hl' & Hik & Hle & _).
        apply (indices_below st Hord) in Hik. simplify_eq. lia.
      * rewrite lookup_insert_ne by (symmetry; by apply Hold).
        by apply Hlr.
  - done.
  - done.
Qed.

Lemma tarjan_inv_set_lowlink g p low st :
  tarjan_inv g st →
  (p ∈ stack st →
   ∃ ip w, indices st !! p = Some ip ∧ (low ≤ ip)%nat ∧
           w ∈ stack st ∧ indices st !! w = Some low ∧ reaches g p w) →
  tarjan_inv g (set_lowlink p low st).
Proof.
  intros [Hord Hlow Hons Hnd Hidx Hls Hsrcs Hcl Hsr Hlr Hcon Hnonempty] Hp.
  split; simpl; try done.
  - by apply pop_ordered_set_lowlink.
  - intros k Hk. destruct (decide (p = k)) as [->|Hne].
    + by rewrite lookup_insert_eq.
    + rewrite lookup_insert_ne by done. by apply Hlow.
  - intros k Hk. destruct (decide (p = k)) as [->|Hne].
    + destruct (Hp Hk) as (ip & w & Hip & Hle & Hw & Hiw & _).
      exists low, ip, w. by rewrite lookup_insert_eq.
    + rewrite lookup_insert_ne by done. by apply Hls.
  - intros x w l Hx Hw. destruct (decide (p = x)) as [->|Hne].
    + rewrite lookup_insert_eq. intros [= <-] Hiw.
      destruct (Hp Hx) as (ip & w' & Hip & Hle & Hw' & Hiw' & Hr).
      by rewrite (stack_index_inj st w w' low Hord Hw Hw' Hiw Hiw').
    + rewrite lookup_insert_ne by done. by apply Hlr.
Qed.


(** * Popping a component *)

Lemma clear_flags_lookup ons l k :
  clear_flags ons l !! k = if decide (k ∈ l) then Some false else ons !! k.
Proof.
  revert ons. induction l as [|w l IH]; intros ons.
  - destruct (decide (k ∈ [])) as [Hk|Hk]; [by apply elem_of_nil in Hk|done].
  - change (clear_flags ons (w :: l)) with (clear_flags (<[w := false]> ons) l).
    rewrite IH.
    destruct (decide (k ∈ l)) as [Hl|Hl], (decide (k ∈ w :: l)) as [Hwl|Hwl];
      try done.
    + exfalso. apply Hwl. by right.
    + apply elem_of_cons in Hwl as [->|?]; [|done]. apply lookup_insert_eq.
    + apply lookup_insert_ne. intros ->. apply Hwl. left.
Qed.

Lemma pop_scc_spec node pre post ons acc :
  node ∉ pre →
  pop_scc node (pre ++ node :: post) ons acc
  = Ok (post, clear_flags ons (pre ++ [node]), acc ++ pre ++ [node]).
Proof.
  revert ons acc. induction pre as [|w pre IH]; intros ons acc Hnode; simpl.
  - by rewrite Nat.eqb_refl.
  - apply not_elem_of_cons in Hnode as [Hne Hnode].
    rewrite (proj2 (Nat.eqb_neq w node)) by done.
    rewrite IH by done. by rewrite <- app_assoc.
Qed.

Lemma low_bounds_mono st st' s0 low low' w :
  indices st ⊆ indices st' → (low' ≤ low)%nat →
  low_bounds st s0 low w → low_bounds st' s0 low' w.
Proof.
  intros Hsub Hle [[i Hi] Hb]. split.
  - exists i. by eapply lookup_weaken.
  - intros Hw. destruct (Hb Hw) as (iw & Hiw & Hl).
    exists iw. split; [by eapply lookup_weaken|lia].
Qed.

Lemma emitted_closed_snoc g l S :
  emitted_closed g l →
  (∀ v w, v ∈ S → w ∈ graph_get g v → w ∈ S ∨ w ∈ mjoin l) →
  emitted_closed g (l ++ [S]).
Proof.
  intros Hl HS n S0 v w Hn Hv Hw.
  destruct (decide (n < length l)%nat) as [Hlt|Hge].
  - rewrite lookup_app_l in Hn by done.
    destruct (Hl n S0 v w Hn Hv Hw) as (m & S' & Hm & HS' & HwS').
    exists m, S'. split; [done|]. split; [|done].
    rewrite lookup_app_l; [done|lia].
  - rewrite lookup_app_r in Hn by lia.
    apply list_lookup_singleton_Some in Hn as [Hn0 <-].
    destruct (HS v w Hv Hw) as [HwS|Hwl].
    + exists n, S. split; [done|]. split; [|done].
      rewrite lookup_app_r by lia. by rewrite Hn0.
    + apply list_elem_of_join in Hwl as (S' & HwS' & HS').
      apply list_elem_of_lookup in HS' as [m Hm].
      exists m, S'. pose proof (lookup_lt_Some _ _ _ Hm).
      split; [lia|]. split; [|done]. by rewrite lookup_app_l.
Qed.

Lemma discovered_later_stack st x y l1 l2 :
  pop_ordered st → stack st = l1 ++ l2 → x ∈ l1 → y ∈ l2 →
  discovered_later (indices st) x y.
Proof.
  intros Hord Hst Hx Hy. pose proof (stack_ordered st Hord) as Hs.
  rewrite Hst in Hs. by eapply StronglySorted_app_1_elem_of.
Qed.


Lemma finish_spec g p st new s0 lp ip :
  tarjan_inv g st →
  stack st = new ++ p :: s0 →
  lowlinks st !! p = Some lp → indices st !! p = Some ip →
  (∀ v w, v ∈ new ++ [p] → w ∈ graph_get g v → low_bounds st s0 lp w) →
  (∀ x, x ∈ new → reaches g x p) →
  ∃ st', finish p st = Ok st' ∧ tarjan_inv g st' ∧
    indices st' = indices st ∧ lowlinks st' = lowlinks st ∧
    ((lp = ip ∧ stack st' = s0) ∨ (lp ≠ ip ∧ st' = st)).
Proof.
  intros Hinv Hstack Hlp Hip Hnbrs Hback.
  unfold finish, dict_get. rewrite Hlp, Hip. simpl.
  destruct (lp =? ip)%nat eqn:Heq; [|apply Nat.eqb_neq in Heq; eauto 10].
  apply Nat.eqb_eq in Heq as ->.
  pose proof Hinv as [Hord Hlow Hons Hnd Hidx Hls Hsrc Hcl Hsr Hlr Hcon Hnonempty].
  assert (p ∉ new) as Hpnew.
  { rewrite Hstack, <- app_assoc in Hnd. apply NoDup_app in Hnd as (_ & Hd & _).
    intros Hin. apply (Hd p Hin). apply elem_of_app. left. left. }
  rewrite Hstack, pop_scc_spec by done. simpl.
  set (S := new ++ [p]).
  assert (stack st = S ++ s0) as Hstack'.
  { rewrite Hstack. unfold S. by rewrite <- app_assoc. }
  assert (∀ k, k ∈ S → k ∉ s0) as Hdisj.
  { rewrite Hstack', <- app_assoc in Hnd.
    apply NoDup_app in Hnd as (_ & Hd & _).
    intros k Hk Hk0. apply (Hd k Hk). apply elem_of_app. by left. }
  assert (s0 ++ mjoin (sccs st ++ [S]) ≡ₚ stack st ++ mjoin (sccs st)) as Hperm.
  { rewrite Hstack', join_app. simpl. rewrite app_nil_r.
    rewrite (Permutation_app_comm (mjoin (sccs st)) S), (assoc_L (++)).
    f_equiv. apply Permutation_app_comm. }
  eexists. split; [done|]. split; [|simpl; eauto].
  split; simpl.
  - eapply (pop_ordered_finish p st); [|done].
    unfold finish, dict_get. rewrite Hlp, Hip. simpl. rewrite Nat.eqb_refl.
    rewrite Hstack, pop_scc_spec by done. done.
  - done.
  - intros k. rewrite clear_flags_lookup. fold S.
    destruct (decide (k ∈ S)) as [HkS|HkS].
    + split; [done|]. intros Hk0. by destruct (Hdisj k HkS).
    + rewrite Hons, Hstack', elem_of_app. tauto.
  - by rewrite Hperm.
  - intros k. by rewrite Hperm.
  - intros k Hk.
    destruct (Hls k) as (l & ik & w & Hl & Hik & Hle & Hw & Hiw).
    { rewrite Hstack'. apply elem_of_app. by right. }
    exists l, ik, w. repeat split; try done.
    rewrite Hstack' in Hw. apply elem_of_app in Hw as [HwS|?]; [|done].
    destruct (discovered_later_stack st w k S s0 Hord Hstack' HwS Hk)
      as (i & j & Hi & Hj & Hlt).
    rewrite Hi in Hiw. rewrite Hj in Hik. simplify_eq. lia.
  - done.
  - apply emitted_closed_snoc; [done|].
    intros v w Hv Hw. destruct (Hnbrs v w Hv Hw) as [Hi Hb].
    apply Hidx in Hi. rewrite Hstack' in Hi.
    apply elem_of_app in Hi as [[?|Hw0]%elem_of_app|?]; [by left| |by right].
    destruct (Hb Hw0) as (iw & Hiw & Hle).
    destruct (discovered_later_stack st p w S s0 Hord Hstack') as
      (i & j & Hi & Hj & Hlt); [apply elem_of_app; right; left|done|].
    rewrite Hi in Hip. rewrite Hj in Hiw. simplify_eq. lia.
  - intros pre a post b Hs0 Hb. apply (Hsr (S ++ pre) a post b).
    + by rewrite Hstack', Hs0, <- app_assoc.
    + apply elem_of_app. by right.
  - intros x w l Hx Hw. apply Hlr; rewrite Hstack'; apply elem_of_app; by right.
  - intros S' x y [HS'| ->%list_elem_of_singleton]%elem_of_app Hx Hy;
      [by eapply Hcon|].
    assert (∀ z, z ∈ S → reaches g z p ∧ reaches g p z) as Hboth.
    { intros z [Hz| ->%list_elem_of_singleton]%elem_of_app; [|done].
      split; [by apply Hback|]. by apply (Hsr new p s0 z). }
    etrans; [apply (Hboth x Hx)|apply (Hboth y Hy)].
  - intros S' [HS'| ->%list_elem_of_singleton]%elem_of_app; [by apply Hnonempty|].
    unfold S. by destruct new.
Qed.


(** * The neighbour loop *)

Lemma set_lowlink_inv g p ip st lp low :
  tarjan_inv g st → p ∈ stack st →
  indices st !! p = Some ip → lowlinks st !! p = Some lp →
  ((low < lp)%nat →
   ∃ w, w ∈ stack st ∧ indices st !! w = Some low ∧ reaches g p w) →
  tarjan_inv g (set_lowlink p (lp `min` low) st) ∧ (lp ≤ ip)%nat.
Proof.
  intros Hinv Hp Hip Hlp Hlow.
  destruct (ti_low_stack g st Hinv p Hp)
    as (l & ik & w & Hl & Hik & Hle & Hw & Hiw).
  simplify_eq. split; [|done].
  apply tarjan_inv_set_lowlink; [done|]. intros _.
  destruct (decide (low < lp)%nat) as [Hlt|Hge].
  - destruct (Hlow Hlt) as (w' & Hw' & Hiw' & Hr').
    exists ip, w'. rewrite Nat.min_r by lia. split; [done|]. split; [lia|done].
  - exists ip, w. rewrite Nat.min_l by lia.
    split; [done|]. split; [done|]. split; [done|]. split; [done|].
    by apply (ti_low_reach g st Hinv p w lp).
Qed.

Section Visit.
Variable g : list (nat * list nat).
Variable call : nat → tarjan_state → option (result tarjan_state).
Hypothesis call_spec : ∀ nb st r,
  tarjan_inv g st → indices st !! nb = None → graph_node g nb →
  (∀ a, a ∈ stack st → reaches g a nb) →
  call nb st = Some r → ∃ st', r = Ok st' ∧ sc_post g nb st st'.

Lemma visit_spec p ip s0 nbrs st new lp r :
  (∀ w, w ∈ nbrs → w ∈ graph_get g p) →
  visiting g p ip s0 st new lp →
  visit call p nbrs st = Some r →
  ∃ st' new' lp', r = Ok st' ∧ visiting g p ip s0 st' new' lp' ∧
    indices st ⊆ indices st' ∧
    (∀ k, is_Some (indices st !! k) → k ≠ p →
       lowlinks st' !! k = lowlinks st !! k) ∧
    (lp' ≤ lp)%nat ∧
    ∀ w, w ∈ nbrs → low_bounds st' s0 lp' w.
Proof.
  revert st new lp.
  induction nbrs as [|nb rest IH]; intros st new lp Hsub Hv; simpl.
  - intros [= <-]. exists st, new, lp.
    split; [done|]. split; [done|]. split; [done|]. split; [done|].
    split; [done|]. intros w Hw. by apply elem_of_nil in Hw.
  - assert (∀ w, w ∈ rest → w ∈ graph_get g p) as Hsub'.
    { intros w Hw. apply Hsub. by right. }
    pose proof Hv as (Hinv & Hstack & Hip & Hlp & Hback & Hb).
    assert (p ∈ stack st) as Hps.
    { rewrite Hstack. apply elem_of_app. right. left. }
    assert (reaches g p nb) as Hedge.
    { apply rtc_once, Hsub. left. }
    assert (∀ a, a ∈ stack st → reaches g a p) as Hdown.
    { intros a. rewrite Hstack.
      intros [Ha|[->|Ha]%elem_of_cons]%elem_of_app; [by apply Hback|done|].
      apply list_elem_of_split in Ha as (s1 & s2 & ->).
      apply (ti_stack_reach g st Hinv (new ++ p :: s1) a s2 p).
      - by rewrite Hstack, <- app_assoc.
      - apply elem_of_app. right. left. }
    destruct (indices st !! nb) as [inb|] eqn:Hnb.
    + destruct (default false (on_stack st !! nb)) eqn:Hons.
      * assert (nb ∈ stack st) as Hnbs.
        { apply (ti_on_stack g st Hinv).
          destruct (on_stack st !! nb) as [[]|]; done. }
        unfold dict_get. rewrite Hlp. intros Hrun.
        destruct (set_lowlink_inv g p ip st lp inb Hinv Hps Hip Hlp)
          as [Hinv3 Hle]; [by eauto|].
        destruct (IH (set_lowlink p (lp `min` inb) st) new (lp `min` inb)
                    Hsub') with (2 := Hrun)
          as (st' & new' & lp' & -> & Hv' & Hi' & Hl' & Hle' & Hnb').
        { split; [done|]. split; [done|]. split; [done|].
          split; [apply lookup_insert_eq|]. split; [done|].
          intros x w Hx Hw.
          apply (low_bounds_mono st _ s0 lp _ w); [done|lia|exact (Hb x w Hx Hw)]. }
        exists st', new', lp'. split; [done|]. split; [done|].
        split; [done|]. split.
        { intros k Hk Hkp. rewrite Hl' by done. simpl.
          by rewrite lookup_insert_ne. }
        split; [lia|].
        intros w [->|Hw]%elem_of_cons; [|by apply Hnb'].
        split; [exists inb; by eapply lookup_weaken|].
        intros _. exists inb. split; [by eapply lookup_weaken|lia].
      * intros Hrun.
        destruct (IH st new lp Hsub' Hv Hrun)
          as (st' & new' & lp' & -> & Hv' & Hi' & Hl' & Hle' & Hnb').
        exists st', new', lp'. split; [done|]. split; [done|].
        split; [done|]. split; [done|]. split; [done|].
        intros w [->|Hw]%elem_of_cons; [|by apply Hnb'].
        split; [exists inb; by eapply lookup_weaken|].
        intros Hw0. exfalso. assert (nb ∈ stack st) as Hnbs.
        { rewrite Hstack. apply elem_of_app. right. by right. }
        apply (ti_on_stack g st Hinv) in Hnbs. by rewrite Hnbs in Hons.
    + destruct (call nb st) as [r1|] eqn:Hcall; [|done].
      destruct (call_spec nb st r1 Hinv Hnb) as (st2 & -> & Hpost);
        [right; exists p; apply Hsub; left| |done|].
      { intros a Ha. etrans; [by apply Hdown|done]. }
      destruct Hpost as
        (Hinv2 & Hi2 & Hnb2 & Hl2 & Hnbtop & newnb & Hstack2 & _ & Hr2 & Hb2).
      assert (lowlinks st2 !! p = Some lp) as Hlp2.
      { rewrite Hl2; [done|by eexists]. }
      assert (indices st2 !! p = Some ip) as Hip2 by by eapply lookup_weaken.
      assert (p ∈ stack st2) as Hps2.
      { rewrite Hstack2. apply elem_of_app. by right. }
      destruct (ti_low_dom g st2 Hinv2 nb Hnb2) as [lb Hlb].
      unfold dict_get. rewrite Hlp2, Hlb. simpl. intros Hrun.
      assert ((ip < index st)%nat) as Hipst.
      { by eapply (indices_below st (ti_ordered g st Hinv)). }
      destruct (set_lowlink_inv g p ip st2 lp lb Hinv2 Hps2 Hip2 Hlp2)
        as [Hinv3 Hle].
      { intros Hlt. destruct Hnbtop as [Hnbs|Hown].
        - destruct (ti_low_stack g st2 Hinv2 nb Hnbs)
            as (l & ik & w & Hl & Hik & Hlik & Hw & Hiw).
          rewrite Hlb in Hl. injection Hl as <-.
          exists w. split; [done|]. split; [done|].
          etrans; [exact Hedge|].
          by apply (ti_low_reach g st2 Hinv2 nb w lb).
        - rewrite Hlb in Hown. injection Hown as ->.
          destruct (ti_low_stack g st2 Hinv2 p Hps2)
            as (l & ik & w & Hl & Hik & Hlik & Hw & Hiw).
          simplify_eq. lia. }
      destruct (IH (set_lowlink p (lp `min` lb) st2) (newnb ++ new)
                  (lp `min` lb) Hsub') with (2 := Hrun)
        as (st' & new' & lp' & -> & Hv' & Hi' & Hl' & Hle' & Hnb').
      { split; [done|]. split.
        { simpl. by rewrite Hstack2, Hstack, <- app_assoc. }
        split; [done|]. split; [apply lookup_insert_eq|].
        split.
        { intros x [Hx|Hx]%elem_of_app; [|by apply Hback].
          destruct (Hr2 x Hx) as (z & Hz & Hxz).
          etrans; [exact Hxz|by apply Hdown]. }
        intros x w [Hx|Hx]%elem_of_app Hw.
        - destruct (Hb2 x w Hx Hw) as (l & Hl & [Hsome Hbound]).
          rewrite Hlb in Hl. injection Hl as <-.
          split; [done|]. intros Hw0.
          destruct Hbound as (iw & Hiw & Hle2).
          { rewrite Hstack. apply elem_of_app. right. by right. }
          exists iw. split; [done|]. lia.
        - apply (low_bounds_mono st _ s0 lp _ w);
            [done|lia|exact (Hb x w Hx Hw)]. }
      exists st', new', lp'. split; [done|]. split; [done|].
      split; [by etrans|]. split.
      { intros k Hk Hkp. rewrite Hl'; [|destruct Hk as [i Hi]; exists i;
          by eapply lookup_weaken|done].
        simpl. rewrite lookup_insert_ne by done. by apply Hl2. }
      split; [lia|].
      intros w [->|Hw]%elem_of_cons; [|by apply Hnb'].
      split.
      { destruct Hnb2 as [i Hi]. exists i. by eapply lookup_weaken. }
      intros Hw0. exfalso.
      destruct (stack_indexed st (ti_ordered g st Hinv) nb) as [i Hi].
      { rewrite Hstack. apply elem_of_app. right. by right. }
      congruence.
Qed.

End Visit.


(** * [strongconnect] and the loop over the roots *)

Lemma strongconnect_spec g fuel node st r :
  tarjan_inv g st → indices st !! node = None → graph_node g node →
  (∀ a, a ∈ stack st → reaches g a node) →
  strongconnect fuel g node st = Some r →
  ∃ st', r = Ok st' ∧ sc_post g node st st'.
Proof.
  revert node st r.
  induction fuel as [|fuel IH]; intros node st r Hinv Hnone Hsrc Hreach; [done|].
  simpl.
  destruct (visit _ _ _ _) as [r1|] eqn:Hvisit; [|done].
  assert (visiting g node (index st) (stack st) (enter node st) [] (index st))
    as Hv0.
  { split; [by apply tarjan_inv_enter|]. split; [done|]. simpl.
    split; [apply lookup_insert_eq|]. split; [apply lookup_insert_eq|].
    split; [intros x Hx; by apply elem_of_nil in Hx|].
    intros x w Hx. by apply elem_of_nil in Hx. }
  destruct (visit_spec g (strongconnect fuel g)
              ltac:(intros; by eapply IH) node (index st) (stack st)
              (graph_get g node) (enter node st) [] (index st) r1
              ltac:(done) Hv0 Hvisit)
    as (st1 & new & lp & -> & Hv1 & Hi1 & Hl1 & Hle1 & Hnb1).
  intros [= <-].
  destruct Hv1 as (Hinv1 & Hstack1 & Hip1 & Hlp1 & Hback1 & Hb1).
  destruct (finish_spec g node st1 new (stack st) lp (index st)
              Hinv1 Hstack1 Hlp1 Hip1)
    as (st' & Hfin & Hinv' & Hidx' & Hlow' & Hcase).
  { intros v w [Hv| ->%list_elem_of_singleton]%elem_of_app Hw.
    - by eapply Hb1.
    - by apply Hnb1. }
  { done. }
  exists st'. split; [done|].
  assert (indices st ⊆ indices st1) as Hsub.
  { etrans; [|done]. simpl. by apply insert_subseteq. }
  assert (∀ k, is_Some (indices st !! k) →
               lowlinks st1 !! k = lowlinks st !! k) as Hstable.
  { intros k Hk. assert (k ≠ node) as Hkn.
    { intros ->. rewrite Hnone in Hk. by destruct Hk. }
    rewrite Hl1; [|simpl; by rewrite lookup_insert_ne|done].
    simpl. by rewrite lookup_insert_ne. }
  split; [done|]. rewrite Hidx', Hlow'.
  split; [done|]. split; [by eexists|]. split; [done|].
  destruct Hcase as [[-> Hs0]|[Hne ->]].
  - split; [by right|]. exists []. split; [done|]. split; [done|].
    split; [intros x Hx; by apply elem_of_nil in Hx|].
    intros x w Hx. by apply elem_of_nil in Hx.
  - split.
    { left. rewrite Hstack1. apply elem_of_app. right. left. }
    assert (∃ z, z ∈ stack st ∧ reaches g node z) as (z & Hz & Hnz).
    { assert (node ∈ stack st1) as Hns.
      { rewrite Hstack1. apply elem_of_app. right. left. }
      destruct (ti_low_stack g st1 Hinv1 node Hns)
        as (l & ik & w & Hl & Hik & Hlik & Hw & Hiw).
      simplify_eq. exists w. split.
      - pose proof Hw as Hw'. rewrite Hstack1 in Hw'.
        apply elem_of_app in Hw' as [Hw'|[->|Hw']%elem_of_cons];
          [|simplify_eq|done].
        destruct (discovered_later_stack st1 w node new (node :: stack st)
                    (ti_ordered g st1 Hinv1) Hstack1 Hw') as
          (i & j & Hi & Hj & Hlt); [left|]. simplify_eq. lia.
      - by apply (ti_low_reach g st1 Hinv1 node w lp). }
    exists (new ++ [node]). split; [by rewrite <- app_assoc|]. split.
    + intros Hempty. rewrite Hempty in Hz. by apply elem_of_nil in Hz.
    + split.
      { intros x [Hx| ->%list_elem_of_singleton]%elem_of_app; [|by eauto].
        exists z. split; [done|]. etrans; [by apply Hback1|done]. }
      intros x w Hx Hw. exists lp. split; [done|].
      apply elem_of_app in Hx as [Hx| ->%list_elem_of_singleton].
      * by eapply Hb1.
      * by apply Hnb1.
Qed.

Lemma tarjan_roots_spec g fuel keys st r :
  (∀ k, k ∈ keys → k ∈ g.*1) →
  tarjan_inv g st → stack st = [] →
  tarjan_roots fuel g keys st = Some r →
  ∃ st', r = Ok st' ∧ tarjan_inv g st' ∧ stack st' = [] ∧
    indices st ⊆ indices st' ∧
    ∀ k, k ∈ keys → is_Some (indices st' !! k).
Proof.
  revert st. induction keys as [|node keys IH]; intros st Hkeys Hinv Hs; simpl.
  - intros [= <-]. exists st. split; [done|]. split; [done|].
    split; [done|]. split; [done|].
    intros k Hk. by apply elem_of_nil in Hk.
  - assert (∀ k, k ∈ keys → k ∈ g.*1) as Hkeys'.
    { intros k Hk. apply Hkeys. by right. }
    destruct (indices st !! node) as [i|] eqn:Hnode.
    + intros Hrun.
      destruct (IH st Hkeys' Hinv Hs Hrun) as (st' & -> & ? & ? & Hsub & Hall).
      exists st'. split; [done|]. split; [done|]. split; [done|].
      split; [done|].
      intros k [->|Hk]%elem_of_cons; [|by apply Hall].
      exists i. by eapply lookup_weaken.
    + destruct (strongconnect fuel g node st) as [r1|] eqn:Hsc; [|done].
      destruct (strongconnect_spec g fuel node st r1 Hinv Hnode) as
        (st1 & -> & Hinv1 & Hsub1 & Hnode1 & _ & _ & new & Hstack1 & Hnew & _);
        [left; apply Hkeys; left| |done|].
      { intros a Ha. rewrite Hs in Ha. by apply elem_of_nil in Ha. }
      rewrite Hs, (Hnew Hs) in Hstack1. intros Hrun.
      destruct (IH st1 Hkeys' Hinv1 Hstack1 Hrun)
        as (st' & -> & ? & ? & Hsub & Hall).
      exists st'. split; [done|]. split; [done|]. split; [done|].
      split; [by etrans|].
      intros k [->|Hk]%elem_of_cons; [|by apply Hall].
      destruct Hnode1 as [i Hi]. exists i. by eapply lookup_weaken.
Qed.

(** A completed pass: no exception, an empty stack, every key indexed. *)
Lemma tarjan_run_spec g fuel r :
  tarjan_run fuel g = Some r →
  ∃ st, r = Ok st ∧ tarjan_inv g st ∧ stack st = [] ∧
    ∀ k, k ∈ g.*1 → is_Some (indices st !! k).
Proof.
  intros Hrun.
  destruct (tarjan_roots_spec g fuel g.*1 tarjan_init r)
    as (st & -> & Hinv & Hs & _ & Hall); try done.
  - apply tarjan_inv_init.
  - by exists st.
Qed.

Lemma graph_get_key g v w : w ∈ graph_get g v → v ∈ g.*1.
Proof.
  induction g as [|[k s] g IH]; simpl; [by intros ?%elem_of_nil|].
  destruct (k =? v)%nat eqn:Hk.
  - apply Nat.eqb_eq in Hk as ->. intros _. left.
  - intros Hw. right. by apply IH.
Qed.

(** The components of a completed pass: which nodes they hold. *)
Lemma tarjan_run_members g fuel st k :
  tarjan_run fuel g = Some (Ok st) →
  k ∈ mjoin (sccs st) ↔ graph_node g k.
Proof.
  intros Hrun.
  destruct (tarjan_run_spec g fuel _ Hrun) as (st' & [= <-] & Hinv & Hs & Hall).
  pose proof (ti_indexed g st Hinv) as Hidx. rewrite Hs in Hidx. simpl in Hidx.
  split.
  - intros Hk. apply (ti_source g st Hinv), Hidx, Hk.
  - intros [Hk|(v & Hv)]; [by apply Hidx, Hall|].
    assert (v ∈ mjoin (sccs st)) as Hvm.
    { apply Hidx, Hall. by eapply graph_get_key. }
    apply list_elem_of_join in Hvm as (S & HvS & HS).
    apply list_elem_of_lookup in HS as [n Hn].
    destruct (ti_closed g st Hinv n S v k Hn HvS Hv) as (m & S' & _ & Hm & Hk).
    apply list_elem_of_join. exists S'. split; [done|].
    by eapply list_elem_of_lookup_2.
Qed.


(** * What propagation can touch *)

Lemma writes_within_refl O σ : writes_within O σ σ.
Proof.
  split; [done|]. intros k _. exists 0%nat. simpl. by destruct (σ !! k).
Qed.

Lemma writes_within_trans O σ1 σ2 σ3 :
  writes_within O σ1 σ2 → writes_within O σ2 σ3 → writes_within O σ1 σ3.
Proof.
  intros [Hk1 Hf1] [Hk2 Hf2]. split; [by auto|].
  intros k Hk. destruct (Hf1 k Hk) as [n1 H1], (Hf2 k Hk) as [n2 H2].
  exists (n2 + n1)%nat. rewrite H2, H1.
  destruct (σ1 !! k) as [v|]; simpl; [|done]. by rewrite Nat.iter_add.
Qed.

Lemma writes_within_insert O σ k v :
  k ∈ O → writes_within O σ (<[k := v]> σ).
Proof.
  intros Hk. split.
  - intros k' Hk'. destruct (decide (k = k')) as [->|Hne].
    + by rewrite lookup_insert_eq.
    + by rewrite lookup_insert_ne.
  - intros k' Hk'. exists 0%nat. rewrite lookup_insert_ne by congruence.
    simpl. by destruct (σ !! k').
Qed.

Lemma writes_within_round O σ : writes_within O σ (round_nodes σ).
Proof.
  unfold round_nodes. split.
  - intros k [v Hv]. rewrite lookup_fmap, Hv. by eexists.
  - intros k _. exists 1%nat. by rewrite lookup_fmap.
Qed.

Lemma elem_of_all_outputs cs idx c o :
  cs !! idx = Some c → o ∈ outputs c → o ∈ all_outputs cs.
Proof.
  intros Hc Ho. apply list_elem_of_join. exists (outputs c). split; [done|].
  apply list_elem_of_fmap. exists c. split; [done|].
  by eapply list_elem_of_lookup_2.
Qed.

Lemma relax_output_within O σ changed o v :
  o ∈ O → writes_within O σ (relax_output σ changed o v).1.
Proof.
  intros Ho. unfold relax_output.
  repeat case_match; simpl;
    first [apply writes_within_refl | by apply writes_within_insert].
Qed.

Lemma relax_outputs_within O outs vals σ changed :
  (∀ j o, (j, o) ∈ outs → o ∈ O) →
  writes_within O σ (final_nodes (relax_outputs outs vals σ changed)).
Proof.
  revert σ changed. induction outs as [|[j o] outs IH]; intros σ changed Ho.
  - apply writes_within_refl.
  - simpl. destruct (vals !! j) as [v|]; [|apply writes_within_refl].
    pose proof (relax_output_within O σ changed o v (Ho j o ltac:(left))) as H1.
    destruct (relax_output σ changed o v) as [σ1 c1].
    eapply writes_within_trans; [exact H1|].
    apply IH. intros j' o' Hin. apply (Ho j' o'). by right.
Qed.

Section Within.
Context {np : Numpy}.
Variable cs : list constraint.

Lemma relax_constraint_within idx σ changed :
  writes_within (all_outputs cs) σ
    (final_nodes (relax_constraint cs idx σ changed)).
Proof.
  unfold relax_constraint, py_index.
  destruct (cs !! idx) as [c|] eqn:Hc; simpl; [|apply writes_within_refl].
  destruct (mapM _ (inputs c)) as [ivs|]; simpl; [|apply writes_within_refl].
  destruct (func c ivs) as [ov|]; simpl; [|apply writes_within_refl].
  apply relax_outputs_within. intros j o Hin%elem_of_enumerate.
  eapply elem_of_all_outputs; [done|]. by eapply list_elem_of_lookup_2.
Qed.

Lemma relax_pass_within scc σ changed :
  writes_within (all_outputs cs) σ (final_nodes (relax_pass cs scc σ changed)).
Proof.
  revert σ changed. induction scc as [|idx scc IH]; intros σ changed; simpl.
  - apply writes_within_refl.
  - pose proof (relax_constraint_within idx σ changed) as H1.
    destruct (relax_constraint cs idx σ changed) as [c1 σ1|e σ1]; [|done].
    eapply writes_within_trans; [exact H1|apply IH].
Qed.

Lemma relax_loop_within fuel scc seen iteration σ r :
  relax_loop cs fuel scc seen iteration σ = Some r →
  writes_within (all_outputs cs) σ (final_nodes r).
Proof.
  revert seen iteration σ.
  induction fuel as [|fuel IH]; intros seen iteration σ; simpl; [done|].
  destruct (existsb _ seen); [intros [= <-]; apply writes_within_refl|].
  destruct (iteration_limit <? S iteration)%nat;
    [intros [= <-]; apply writes_within_refl|].
  pose proof (relax_pass_within scc σ false) as H1.
  destruct (relax_pass cs scc σ false) as [[] σ1|e σ1].
  - intros Hr. eapply writes_within_trans; [exact H1|by eapply IH].
  - by intros [= <-].
  - by intros [= <-].
Qed.

Lemma relax_within scc σ r :
  relax cs scc σ = Some r →
  writes_within (all_outputs cs) σ (final_nodes r).
Proof.
  unfold relax.
  destruct (relax_loop _ _ _ _ _ _) as [r1|] eqn:Hloop; [|done].
  apply relax_loop_within in Hloop.
  destruct r1 as [[] σ1|e σ1]; intros [= <-]; simpl in *; [|done].
  eapply writes_within_trans; [done|apply writes_within_round].
Qed.

Lemma assign_solution_within O vi solution σ :
  (∀ idx node, (idx, node) ∈ vi → node ∈ O) →
  writes_within O σ (final_nodes (assign_solution vi solution σ)).
Proof.
  revert σ. induction vi as [|[idx node] vi IH]; intros σ HO; simpl.
  - apply writes_within_refl.
  - destruct (solution !! idx) as [x|]; [|apply writes_within_refl].
    eapply writes_within_trans.
    + apply writes_within_insert, (HO idx node). left.
    + apply IH. intros idx' node' Hin. apply (HO idx' node'). by right.
Qed.

Lemma process_scc_within scc σ r :
  process_scc cs scc σ = Some r →
  writes_within (all_outputs cs) σ (final_nodes r).
Proof.
  unfold process_scc.
  destruct (variables cs σ scc) as [vars|e] eqn:Hvars; simpl;
    [|intros [= <-]; apply writes_within_refl].
  destruct (linearize cs σ vars scc) as [[rows constants]|e]; simpl;
    [|intros [= <-]; apply writes_within_refl].
  destruct (solve vars rows constants σ) as [r1|] eqn:Hsolve;
    [|apply relax_within].
  intros [= <-]. unfold solve in Hsolve.
  destruct rows as [|row rows]; [done|].
  destruct (matrix_rank _) as [rk|]; [|done].
  destruct (rk =? length vars)%nat; [|done].
  destruct (lstsq _ _) as [solution|]; [|done].
  injection Hsolve as <-. apply assign_solution_within.
  intros idx node Hin%elem_of_enumerate.
  apply list_elem_of_lookup_2 in Hin.
  apply (elem_of_variables cs σ scc vars node Hvars) in Hin
    as (_ & i & c & _ & Hc & Ho).
  by eapply elem_of_all_outputs.
Qed.

Lemma process_sccs_within l σ r :
  process_sccs cs l σ = Some r →
  writes_within (all_outputs cs) σ (final_nodes r).
Proof.
  revert σ. induction l as [|scc l IH]; intros σ; simpl.
  - intros [= <-]. apply writes_within_refl.
  - destruct (process_scc cs scc σ) as [r1|] eqn:Hscc; [|done].
    apply process_scc_within in Hscc.
    destruct r1 as [[] σ1|e σ1]; [|by intros [= <-]].
    intros Hr. eapply writes_within_trans; [exact Hscc|by apply IH].
Qed.

End Within.

Lemma propagate_within {np : Numpy} (self : ConstraintLattice) r :
  propagate self = Some r →
  writes_within (all_outputs (constraints self)) (nodes self) (final_nodes r).
Proof.
  unfold propagate.
  destruct (_tarjan_scc _ _) as [[l|e]|]; [|intros [= <-]|done].
  - apply process_sccs_within.
  - apply writes_within_refl.
Qed.


(** * A graph without edges *)

Lemma constraint_graph_nil cs :
  (∀ i j, j ∉ graph_get (constraint_graph cs) i) → constraint_graph cs = [].
Proof.
  intros Hno. destruct (constraint_graph_keys cs) as [_ Hedges].
  destruct (constraint_graph cs) as [|[k s] g]; [done|]. exfalso.
  destruct s as [|x s]; [by apply (Hedges k []); [left|]|].
  apply (Hno k x). simpl. rewrite Nat.eqb_refl. left.
Qed.

Lemma propagate_no_edges {np : Numpy} (self : ConstraintLattice) :
  constraint_graph (constraints self) = [] →
  propagate self = Some (Return () (nodes self)).
Proof.
  intros Hg. unfold propagate. rewrite Hg.
  by destruct (length (constraints self)).
Qed.

(** * Step A reads a missing input as zero *)

Lemma foldM_ext {A B} (f g : B → A → result B) (l : list A) (b : B) :
  (∀ b a, a ∈ l → f b a = g b a) → foldM f b l = foldM g b l.
Proof.
  revert b. induction l as [|a l IH]; intros b Hfg; simpl; [done|].
  rewrite Hfg by left. destruct (g b a) as [b'|e]; simpl; [|done].
  apply IH. intros b0 a0 Ha0. apply Hfg. by right.
Qed.

Lemma mapM_ext {A B} (f g : A → result B) (l : list A) :
  (∀ a, a ∈ l → f a = g a) → mapM f l = mapM g l.
Proof.
  induction l as [|a l IH]; intros Hfg; [done|].
  change (mapM f (a :: l)) with (y ← f a; k ← mapM f l; mret (y :: k)).
  change (mapM g (a :: l)) with (y ← g a; k ← mapM g l; mret (y :: k)).
  rewrite Hfg by left. rewrite IH; [done|].
  intros a0 Ha0. apply Hfg. by right.
Qed.

Lemma linearize_default_zero cs (σ : gmap string value) i vars scc :
  σ !! i = None →
  linearize cs (<[i := VNum 0]> σ) vars scc = linearize cs σ vars scc.
Proof.
  intros Hnone. unfold linearize. destruct vars as [|v vars]; [done|].
  apply foldM_ext. intros sys idx _. unfold linearize_constraint.
  destruct (py_index cs idx) as [c|e]; simpl; [|done].
  assert (mapM (λ node, py_float (default (VNum 0) (<[i := VNum 0]> σ !! node)))
               (inputs c)
          = mapM (λ node, py_float (default (VNum 0) (σ !! node))) (inputs c))
    as ->; [|done].
  apply mapM_ext. intros node _. destruct (decide (i = node)) as [->|Hne].
  - by rewrite lookup_insert_eq, Hnone.
  - by rewrite lookup_insert_ne.
Qed.

(** * The shape of the linear system *)

Lemma index_of_Some node vars : is_Some (index_of node vars) ↔ node ∈ vars.
Proof.
  induction vars as [|x vars IH]; simpl.
  - split; [by intros [? ?]|by intros ?%elem_of_nil].
  - destruct (String.eqb_spec x node) as [->|Hne].
    + split; [left|by eexists].
    + rewrite fmap_is_Some, IH, elem_of_cons. split; [by right|].
      by intros [?|?].
Qed.

Lemma index_of_lookup node vars pos :
  index_of node vars = Some pos → vars !! pos = Some node.
Proof.
  revert pos. induction vars as [|x vars IH]; intros pos; simpl; [done|].
  destruct (String.eqb_spec x node) as [->|Hne].
  - by intros [= <-].
  - destruct (index_of node vars) as [p|]; [|done].
    simpl. intros [= <-]. by apply IH.
Qed.

Lemma lookup_index_of node vars pos :
  NoDup vars → vars !! pos = Some node → index_of node vars = Some pos.
Proof.
  intros Hnd. revert pos. induction Hnd as [|x vars Hx Hnd IH]; intros pos.
  - done.
  - destruct pos as [|pos]; simpl.
    + intros [= ->]. by rewrite String.eqb_refl.
    + intros Hpos. destruct (String.eqb_spec x node) as [->|Hne].
      * exfalso. apply Hx. by eapply list_elem_of_lookup_2.
      * by rewrite (IH pos Hpos).
Qed.

Lemma linearize_output_shape c vars baseline base_output sys oo sys' :
  linearize_output c vars baseline base_output sys oo = Ok sys' →
  length sys'.1 =
    (length sys.1 + if decide (is_Some (index_of oo.2 vars)) then 1 else 0)%nat ∧
  (length sys.1 = length sys.2 → length sys'.1 = length sys'.2).
Proof.
  unfold linearize_output.
  destruct (decide (is_Some (index_of oo.2 vars))) as [[col Hcol]|Hnone].
  - rewrite Hcol.
    destruct (py_index base_output oo.1) as [bo|]; [simpl|done].
    destruct (py_float bo) as [constant|]; [simpl|done].
    destruct (foldM _ _ _) as [eqn|]; [simpl|done].
    intros [= <-]. simpl. rewrite !length_app. simpl. split; [done|lia].
  - destruct (index_of oo.2 vars) as [col|]; [by destruct Hnone|].
    intros [= <-]. split; [lia|done].
Qed.

Lemma linearize_outputs_shape c vars baseline base_output outs sys sys' :
  foldM (linearize_output c vars baseline base_output) sys outs = Ok sys' →
  length sys'.1 =
    (length sys.1 + length (filter (λ o, is_Some (index_of o vars)) outs.*2))%nat ∧
  (length sys.1 = length sys.2 → length sys'.1 = length sys'.2).
Proof.
  revert sys. induction outs as [|oo outs IH]; intros sys; simpl.
  - intros [= <-]. split; [lia|done].
  - destruct (linearize_output _ _ _ _ sys oo) as [sys1|] eqn:H1; [simpl|done].
    apply linearize_output_shape in H1 as [Hlen1 Heq1].
    intros [Hlen Heq]%IH. rewrite filter_cons. split.
    + rewrite Hlen, Hlen1, <- Nat.add_assoc. f_equal.
      by destruct (decide _).
    + auto.
Qed.

Lemma linearize_shape cs (σ : gmap string value) vars scc rows constants :
  linearize cs σ vars scc = Ok (rows, constants) →
  length rows = length constants ∧
  length rows =
    sum_list ((λ idx, from_option (equations_of vars) 0%nat (cs !! idx)) <$> scc).
Proof.
  unfold linearize. destruct vars as [|v vars].
  { intros [= <- <-]. split; [done|]. simpl.
    induction scc as [|idx scc IH]; [done|]. csimpl. rewrite <- IH.
    destruct (cs !! idx) as [c|]; [|done]. simpl. unfold equations_of.
    by induction (outputs c). }
  generalize (v :: vars). clear v vars. intros vars.
  assert (∀ sys sys',
    foldM (linearize_constraint cs σ vars) sys scc = Ok sys' →
    length sys'.1 =
      (length sys.1 +
       sum_list ((λ idx, from_option (equations_of vars) 0%nat (cs !! idx))
                   <$> scc))%nat ∧
    (length sys.1 = length sys.2 → length sys'.1 = length sys'.2)) as Hgen.
  { induction scc as [|idx scc IH]; intros sys sys'; simpl.
    - intros [= <-]. split; [lia|done].
    - destruct (linearize_constraint cs σ vars sys idx) as [sys1|] eqn:H1;
        [simpl|done].
      intros [Hlen Heq]%IH.
      unfold linearize_constraint, py_index in H1.
      destruct (cs !! idx) as [c|]; [simpl in *|done].
      destruct (mapM _ (inputs c)) as [baseline|]; [simpl in *|done].
      destruct (_ <$> func c _) as [base_output|]; [simpl in *|done].
      apply linearize_outputs_shape in H1 as [Hlen1 Heq1].
      rewrite fmap_snd_enumerate in Hlen1. unfold equations_of.
      split; [rewrite Hlen, Hlen1, <- Nat.add_assoc; reflexivity|auto]. }
  intros Hlin. destruct (Hgen _ _ Hlin) as [Hlen Heq]. simpl in *.
  split; [by apply Heq|done].
Qed.

(** * A relation that returns too few values *)

Lemma relax_outputs_arity outs vals σ changed :
  match relax_outputs outs vals σ changed with
  | Return _ _ => ∀ j o, (j, o) ∈ outs → (j < length vals)%nat
  | Throw e _ => e = IndexError ∧ ∃ j o, (j, o) ∈ outs ∧ (length vals ≤ j)%nat
  end.
Proof.
  revert σ changed. induction outs as [|[j o] outs IH]; intros σ changed; simpl.
  - intros j o Hin. by apply elem_of_nil in Hin.
  - destruct (vals !! j) as [v|] eqn:Hj.
    + destruct (relax_output σ changed o v) as [σ1 c1].
      specialize (IH σ1 c1).
      destruct (relax_outputs outs vals σ1 c1) as [c2 σ2|e σ2].
      * intros j' o' [[= -> ->]|Hin]%elem_of_cons; [|by eapply IH].
        by eapply lookup_lt_Some.
      * destruct IH as (-> & j' & o' & Hin & Hle). split; [done|].
        exists j', o'. split; [by right|done].
    + split; [done|]. exists j, o. split; [left|].
      by apply lookup_ge_None.
Qed.

Lemma enumerate_bounded {A} (l : list A) n :
  (∀ j a, (j, a) ∈ enumerate l → (j < n)%nat) ↔ (length l ≤ n)%nat.
Proof.
  split.
  - intros Hb. destruct l as [|a l] using rev_ind; [simpl; lia|].
    rewrite length_app. simpl.
    specialize (Hb (length l) a). rewrite elem_of_enumerate in Hb.
    rewrite lookup_app_r, Nat.sub_diag in Hb by lia.
    specialize (Hb eq_refl). lia.
  - intros Hle j a Hin%elem_of_enumerate. apply lookup_lt_Some in Hin. lia.
Qed.

(** * The flag of a pass *)

Lemma relax_output_flag σ changed o v σ' :
  relax_output σ changed o v = (σ', false) → σ' = σ ∧ changed = false.
Proof.
  unfold relax_output. repeat case_match; by intros [= <- <-].
Qed.

Lemma relax_outputs_flag outs vals σ changed σ' :
  relax_outputs outs vals σ changed = Return false σ' →
  σ' = σ ∧ changed = false.
Proof.
  revert σ changed. induction outs as [|[j o] outs IH]; intros σ changed; simpl.
  - by intros [= <- <-].
  - destruct (vals !! j) as [v|]; [|done].
    destruct (relax_output σ changed o v) as [σ1 c1] eqn:H1.
    intros [-> ->]%IH. by apply relax_output_flag in H1.
Qed.

Lemma relax_pass_flag cs scc σ changed σ' :
  relax_pass cs scc σ changed = Return false σ' → σ' = σ ∧ changed = false.
Proof.
  revert σ changed. induction scc as [|idx scc IH]; intros σ changed; simpl.
  - by intros [= <- <-].
  - destruct (relax_constraint cs idx σ changed) as [c1 σ1|e σ1] eqn:H1; [|done].
    intros [-> ->]%IH. unfold relax_constraint in H1.
    destruct (_ ≫= _) as [[c vals]|e]; [|done].
    by apply relax_outputs_flag in H1.
Qed.

(** * A value that is no number is stored as it is *)

Lemma value_eqb_refl v : is_number v = false → value_eqb v v = true.
Proof. destruct v; [done..|]. intros _. simpl. apply String.eqb_refl. Qed.

Lemma relax_output_opaque σ changed o v :
  is_number v = false →
  let σ1 := (relax_output σ changed o v).1 in
  default VNone (σ1 !! o) = v ∧
  ∀ changed', relax_output σ1 changed' o v = (σ1, changed').
Proof.
  intros Hv. simpl.
  assert (∀ σ0 : gmap string value, default VNone (σ0 !! o) = v →
            ∀ changed', relax_output σ0 changed' o v = (σ0, changed')) as Hfix.
  { intros σ0 H0 changed'. unfold relax_output. rewrite H0.
    destruct v; [| done |]; by rewrite value_eqb_refl. }
  assert (default VNone ((relax_output σ changed o v).1 !! o) = v) as Hset.
  { unfold relax_output.
    destruct (default VNone (σ !! o)) as [|old|s] eqn:Hold.
    - destruct v as [|x|t]; simpl; [done|done|by rewrite lookup_insert_eq].
    - destruct v as [|x|t]; simpl; [|done|]; by rewrite lookup_insert_eq.
    - destruct v as [|x|t]; simpl; [by rewrite lookup_insert_eq|done|].
      destruct (String.eqb_spec s t) as [->|Hne]; simpl; [done|].
      by rewrite lookup_insert_eq. }
  split; [done|]. by apply Hfix.
Qed.

(** * Step B on registered inputs and total relations *)

Lemma mapM_length {A B} (f : A → result B) (l : list A) (ys : list B) :
  mapM f l = Ok ys → length ys = length l.
Proof. intros H%mapM_Ok. symmetry. by eapply Forall2_length. Qed.

Lemma mapM_read_node σ ins :
  (∀ i, i ∈ ins → is_Some (σ !! i)) → ∃ vs, mapM (read_node σ) ins = Ok vs.
Proof.
  induction ins as [|i ins IH]; intros Hreg; [by eexists|].
  destruct (Hreg i) as [v Hv]; [left|].
  destruct IH as [vs Hvs]; [intros j Hj; apply Hreg; by right|].
  exists (v :: vs).
  change (mapM (read_node σ) (i :: ins))
    with (y ← read_node σ i; l ← mapM (read_node σ) ins; mret (y :: l)).
  assert (read_node σ i = Ok v) as -> by (unfold read_node; by rewrite Hv).
  simpl. by rewrite Hvs.
Qed.

Lemma step_b_safe_mono cs scc O σ σ' :
  writes_within O σ σ' → step_b_safe cs scc σ → step_b_safe cs scc σ'.
Proof.
  intros [Hkeep _] Hsafe idx Hidx.
  destruct (Hsafe idx Hidx) as (c & Hc & Hreg & Hfun).
  exists c. split; [done|]. split; [|done]. intros i Hi. by apply Hkeep, Hreg.
Qed.

Lemma relax_constraint_safe cs idx σ changed :
  step_b_safe cs [idx] σ →
  ∃ changed' σ', relax_constraint cs idx σ changed = Return changed' σ'.
Proof.
  intros Hsafe. destruct (Hsafe idx) as (c & Hc & Hreg & Hfun); [left|].
  unfold relax_constraint, py_index. rewrite Hc. simpl.
  destruct (mapM_read_node σ (inputs c) Hreg) as [vs Hvs]. rewrite Hvs. simpl.
  destruct (Hfun vs) as (r & Hr & Hlen); [by eapply mapM_length|].
  rewrite Hr. simpl.
  pose proof (relax_outputs_arity (enumerate (outputs c)) (as_tuple r) σ changed)
    as Har.
  destruct (relax_outputs _ _ _ _) as [c1 σ1|e σ1]; [by eauto|].
  destruct Har as (_ & j & o & Hin%elem_of_enumerate & Hle).
  apply lookup_lt_Some in Hin. lia.
Qed.

Lemma relax_pass_safe cs scc σ changed :
  step_b_safe cs scc σ →
  ∃ changed' σ', relax_pass cs scc σ changed = Return changed' σ'.
Proof.
  revert σ changed. induction scc as [|idx scc IH]; intros σ changed Hsafe; simpl.
  - by eauto.
  - destruct (relax_constraint_safe cs idx σ changed) as (c1 & σ1 & H1).
    { intros i ->%list_elem_of_singleton. apply Hsafe. left. }
    rewrite H1. apply IH.
    apply (step_b_safe_mono cs scc (all_outputs cs) σ).
    + pose proof (relax_constraint_within cs idx σ changed) as Hw.
      by rewrite H1 in Hw.
    + intros i Hi. apply Hsafe. by right.
Qed.

Lemma relax_loop_safe cs fuel scc seen iteration σ r :
  step_b_safe cs scc σ →
  relax_loop cs fuel scc seen iteration σ = Some r →
  ∃ σ', r = Return () σ'.
Proof.
  revert seen iteration σ.
  induction fuel as [|fuel IH]; intros seen iteration σ Hsafe; simpl; [done|].
  destruct (existsb _ seen); [intros [= <-]; by eexists|].
  destruct (iteration_limit <? S iteration)%nat; [intros [= <-]; by eexists|].
  destruct (relax_pass_safe cs scc σ false Hsafe) as (c1 & σ1 & H1).
  rewrite H1. destruct c1; [|intros [= <-]; by eexists].
  apply IH. apply (step_b_safe_mono cs scc (all_outputs cs) σ); [|done].
  pose proof (relax_pass_within cs scc σ false) as Hw. by rewrite H1 in Hw.
Qed.

Lemma relax_safe cs scc σ :
  step_b_safe cs scc σ → ∃ σ', relax cs scc σ = Some (Return () σ').
Proof.
  intros Hsafe. unfold relax.
  destruct (relax_loop_returns cs (S iteration_limit) scc [] 0 σ) as [r Hr];
    [lia..|].
  rewrite Hr. destruct (relax_loop_safe _ _ _ _ _ _ _ Hsafe Hr) as [σ' ->].
  by eexists.
Qed.

(** * Registering one more relation *)

Lemma constraint_graph_snoc cs c i j :
  (i < length cs)%nat → (j < length cs)%nat →
  j ∈ graph_get (constraint_graph (cs ++ [c])) i ↔
  j ∈ graph_get (constraint_graph cs) i.
Proof.
  intros Hi Hj. rewrite !elem_of_constraint_graph.
  by rewrite !lookup_app_l.
Qed.

Lemma constraint_graph_last cs c i :
  let n := length cs in
  (i ∈ graph_get (constraint_graph (cs ++ [c])) n ↔
     ∃ ci name, (cs ++ [c]) !! i = Some ci ∧
                name ∈ outputs c ∧ name ∈ inputs ci) ∧
  (n ∈ graph_get (constraint_graph (cs ++ [c])) i ↔
     ∃ ci name, (cs ++ [c]) !! i = Some ci ∧
                name ∈ outputs ci ∧ name ∈ inputs c).
Proof.
  simpl. rewrite !elem_of_constraint_graph.
  assert ((cs ++ [c]) !! length cs = Some c) as Hlast.
  { rewrite lookup_app_r by lia. by rewrite Nat.sub_diag. }
  split.
  - split.
    + intros (ci & cj & name & Hci & Ho & Hcj & Hin).
      rewrite Hlast in Hci. injection Hci as <-. by exists cj, name.
    + intros (ci & name & Hci & Ho & Hin). by exists c, ci, name.
  - split.
    + intros (ci & cj & name & Hci & Ho & Hcj & Hin).
      rewrite Hlast in Hcj. injection Hcj as <-. by exists ci, name.
    + intros (ci & name & Hci & Ho & Hin). by exists ci, c, name.
Qed.


(** * The components of a completed pass *)

Lemma tarjan_scc_run fuel g l :
  _tarjan_scc fuel g = Some (Ok l) →
  ∃ st, tarjan_run fuel g = Some (Ok st) ∧ l = sccs st.
Proof.
  unfold _tarjan_scc. destruct (tarjan_run fuel g) as [[st|e]|]; [|done..].
  intros [= <-]. by exists st.
Qed.

Lemma tarjan_scc_inv fuel g l :
  _tarjan_scc fuel g = Some (Ok l) →
  ∃ st, l = sccs st ∧ tarjan_inv g st ∧ stack st = [] ∧
    ∀ k, k ∈ mjoin l ↔ graph_node g k.
Proof.
  intros (st & Hrun & ->)%tarjan_scc_run.
  destruct (tarjan_run_spec g fuel _ Hrun) as (st' & [= <-] & Hinv & Hs & _).
  exists st. split; [done|]. split; [done|]. split; [done|].
  intros k. by eapply tarjan_run_members.
Qed.

Lemma tarjan_scc_no_raise fuel g e : _tarjan_scc fuel g ≠ Some (Raise e).
Proof.
  unfold _tarjan_scc. destruct (tarjan_run fuel g) as [[st|e']|] eqn:Hrun;
    [done| |done].
  by destruct (tarjan_run_spec g fuel _ Hrun) as (st & [=] & _).
Qed.

Lemma tarjan_scc_constraint_graph cs :
  ∃ l, _tarjan_scc (length cs) (constraint_graph cs) = Some (Ok l).
Proof.
  destruct (tarjan_scc_returns cs) as [[l|e] Hr]; [by exists l|].
  by apply tarjan_scc_no_raise in Hr.
Qed.

Lemma closed_reach g l n S v w :
  emitted_closed g l → l !! n = Some S → v ∈ S → reaches g v w →
  ∃ m S', (m ≤ n)%nat ∧ l !! m = Some S' ∧ w ∈ S'.
Proof.
  intros Hcl Hn Hv Hvw. revert n S Hn Hv.
  induction Hvw as [v|v u w Hvu Huw IH]; intros n S Hn Hv.
  - exists n, S. done.
  - destruct (Hcl n S v u Hn Hv Hvu) as (m & S' & Hm & HS' & Hu).
    destruct (IH m S' HS' Hu) as (m' & S'' & Hm' & HS'' & Hw).
    exists m', S''. split; [lia|done].
Qed.

Lemma NoDup_join_lookup {A} (l : list (list A)) a b S S' x :
  NoDup (mjoin l) → l !! a = Some S → l !! b = Some S' →
  x ∈ S → x ∈ S' → a = b.
Proof.
  revert a b. induction l as [|S0 l IH]; intros a b Hnd Ha Hb Hx Hx'; [done|].
  simpl in Hnd. apply NoDup_app in Hnd as (_ & Hdisj & Hnd).
  assert (∀ c T, l !! c = Some T → x ∈ T → x ∈ mjoin l) as Hin.
  { intros c T Hc HT. apply list_elem_of_join. exists T. split; [done|].
    by eapply list_elem_of_lookup_2. }
  destruct a as [|a], b as [|b]; simpl in *; simplify_eq.
  - done.
  - exfalso. apply (Hdisj x Hx). by eapply Hin.
  - exfalso. apply (Hdisj x Hx'). by eapply Hin.
  - f_equal. by eapply IH.
Qed.

Lemma component_unique fuel g l S S' x :
  _tarjan_scc fuel g = Some (Ok l) → S ∈ l → S' ∈ l → x ∈ S → x ∈ S' → S = S'.
Proof.
  intros (st & -> & Hinv & Hs & _)%tarjan_scc_inv HS HS' Hx Hx'.
  pose proof (ti_nodup g st Hinv) as Hnd. rewrite Hs in Hnd. simpl in Hnd.
  apply list_elem_of_lookup in HS as [a Ha], HS' as [b Hb].
  assert (a = b) as -> by by eapply NoDup_join_lookup. congruence.
Qed.

Lemma component_members fuel g l S x y :
  _tarjan_scc fuel g = Some (Ok l) → S ∈ l → x ∈ S →
  y ∈ S ↔ reaches g x y ∧ reaches g y x.
Proof.
  intros (st & -> & Hinv & Hs & _)%tarjan_scc_inv HS Hx. split.
  - intros Hy. split; by eapply (ti_connected g st Hinv S).
  - intros [Hxy Hyx].
    pose proof (ti_nodup g st Hinv) as Hnd. rewrite Hs in Hnd. simpl in Hnd.
    apply list_elem_of_lookup in HS as [n Hn].
    destruct (closed_reach g _ n S x y (ti_closed g st Hinv) Hn Hx Hxy)
      as (m & S' & Hm & HS' & Hy).
    destruct (closed_reach g _ m S' y x (ti_closed g st Hinv) HS' Hy Hyx)
      as (m' & S'' & Hm' & HS'' & Hx').
    assert (n = m') as <- by by eapply NoDup_join_lookup.
    assert (m = n) as -> by lia. congruence.
Qed.

Lemma component_order fuel g l a C v w :
  _tarjan_scc fuel g = Some (Ok l) →
  reverse l !! a = Some C → v ∈ C → w ∈ graph_get g v →
  ∃ b C', (a ≤ b)%nat ∧ reverse l !! b = Some C' ∧ w ∈ C'.
Proof.
  intros (st & -> & Hinv & Hs & _)%tarjan_scc_inv Ha Hv Hw.
  pose proof (lookup_lt_Some _ _ _ Ha) as Hlt. rewrite length_reverse in Hlt.
  rewrite reverse_lookup in Ha by done.
  destruct (ti_closed g st Hinv _ C v w Ha Hv Hw) as (m & C' & Hm & HS' & HwS').
  pose proof (lookup_lt_Some _ _ _ HS') as Hlt'.
  exists (length (sccs st) - S m)%nat, C'. split; [lia|]. split; [|done].
  rewrite reverse_lookup by lia. rewrite <- HS'. f_equal. lia.
Qed.

(** * The nodes of the relation graph *)

Lemma graph_node_feeds cs k :
  graph_node (constraint_graph cs) k ↔ ∃ j, feeds cs k j ∨ feeds cs j k.
Proof.
  destruct (constraint_graph_keys cs) as [_ Hedges]. split.
  - intros [Hk|[v Hv]].
    + apply (elem_of_keys_graph_get _ _ Hedges) in Hk.
      destruct (graph_get (constraint_graph cs) k) as [|j s] eqn:Hget; [done|].
      exists j. left. apply elem_of_constraint_graph. rewrite Hget. left.
    + exists v. right. by apply elem_of_constraint_graph.
  - intros [j [Hkj|Hjk]].
    + left. apply (elem_of_keys_graph_get _ _ Hedges).
      apply elem_of_constraint_graph in Hkj. intros Hnil.
      rewrite Hnil in Hkj. by apply elem_of_nil in Hkj.
    + right. exists j. by apply elem_of_constraint_graph.
Qed.

Lemma feeds_lt cs i j : feeds cs i j → (i < length cs)%nat ∧ (j < length cs)%nat.
Proof.
  intros (ci & cj & name & Hi & _ & Hj & _).
  split; by eapply lookup_lt_Some.
Qed.

Lemma constraint_graph_key_feeds cs k :
  k ∈ (constraint_graph cs).*1 ↔ ∃ j, feeds cs k j.
Proof.
  destruct (constraint_graph_keys cs) as [_ Hedges].
  rewrite (elem_of_keys_graph_get _ _ Hedges). split.
  - intros Hne.
    destruct (graph_get (constraint_graph cs) k) as [|j s] eqn:Hget; [done|].
    exists j. apply elem_of_constraint_graph. rewrite Hget. left.
  - intros [j Hkj%elem_of_constraint_graph] Hnil.
    rewrite Hnil in Hkj. by apply elem_of_nil in Hkj.
Qed.

Lemma constraint_graph_nil_feeds cs :
  constraint_graph cs = [] ↔ ∀ i j, ¬ feeds cs i j.
Proof.
  split.
  - intros Hnil i j Hij%elem_of_constraint_graph.
    rewrite Hnil in Hij. by apply elem_of_nil in Hij.
  - intros Hno. apply constraint_graph_nil.
    intros i j Hij%elem_of_constraint_graph. by apply (Hno i j).
Qed.


(** * A component without variables *)

Lemma variables_returns cs (σ : gmap string value) scc :
  (∀ idx, idx ∈ scc → is_Some (cs !! idx)) →
  ∃ vars, variables cs σ scc = Ok vars.
Proof.
  intros Hvalid. unfold variables.
  assert (∃ outs, mapM (λ idx, outputs <$> py_index cs idx) scc = Ok outs)
    as [outs ->]; [|by eexists].
  induction scc as [|idx scc IH]; [by eexists|].
  destruct (Hvalid idx) as [c Hc]; [left|].
  destruct IH as [outs Houts]; [intros i Hi; apply Hvalid; by right|].
  exists (outputs c :: outs).
  change (mapM (λ idx, outputs <$> py_index cs idx) (idx :: scc))
    with (y ← outputs <$> py_index cs idx;
          k ← mapM (λ idx, outputs <$> py_index cs idx) scc; mret (y :: k)).
  assert (py_index cs idx = Ok c) as -> by (unfold py_index; by rewrite Hc).
  simpl. by rewrite Houts.
Qed.

Lemma process_scc_no_variables {np : Numpy} cs (σ : gmap string value) scc :
  (∀ idx, idx ∈ scc → is_Some (cs !! idx)) →
  (∀ idx c o, idx ∈ scc → cs !! idx = Some c → o ∈ outputs c → σ !! o = None) →
  variables cs σ scc = Ok [] ∧ process_scc cs scc σ = relax cs scc σ.
Proof.
  intros Hvalid Hnone.
  destruct (variables_returns cs σ scc Hvalid) as [vars Hvars].
  assert (vars = []) as ->.
  { destruct vars as [|v vars]; [done|]. exfalso.
    destruct (proj1 (elem_of_variables cs σ scc _ v Hvars))
      as ([x Hx] & idx & c & Hidx & Hc & Ho); [left|].
    rewrite (Hnone idx c v Hidx Hc Ho) in Hx. discriminate. }
  split; [done|]. unfold process_scc. by rewrite Hvars.
Qed.


(** * An equation without variable inputs *)

Lemma foldM_skip {A B} (f : B → A → result B) (l : list A) (b : B) :
  (∀ a, a ∈ l → f b a = Ok b) → foldM f b l = Ok b.
Proof.
  induction l as [|a l IH]; intros Hf; simpl; [done|].
  rewrite Hf by left. simpl. apply IH. intros a0 Ha0. apply Hf. by right.
Qed.

Lemma linearize_output_constant c vars baseline base_output sys pos o col bo k :
  (∀ i, i ∈ inputs c → i ∉ vars) →
  index_of o vars = Some col → base_output !! pos = Some bo →
  py_float bo = Ok k →
  linearize_output c vars baseline base_output sys (pos, o)
  = Ok (sys.1 ++ [<[col := 1%float]> (replicate (length vars) 0%float)],
        sys.2 ++ [k]).
Proof.
  intros Hin Hcol Hbo Hk. unfold linearize_output, py_index. simpl.
  rewrite Hcol, Hbo. simpl. rewrite Hk. simpl.
  rewrite foldM_skip; [done|].
  intros [j i] Hji%elem_of_enumerate. unfold linearize_input. simpl.
  destruct (index_of i vars) as [ci|] eqn:Hi; [|done].
  exfalso. apply (Hin i); [by eapply list_elem_of_lookup_2|].
  apply index_of_Some. by eexists.
Qed.

Lemma iter_round_opaque n v :
  is_number v = false → Nat.iter n round_value v = v.
Proof.
  intros Hv. induction n as [|n IH]; [done|]. simpl. rewrite IH.
  by destruct v.
Qed.

Local Open Scope Z_scope.

(** * Properties of propagation *)

(** C1: on nodes [x = 0] and [y] with the single relation [y = 2*x + 3],
    [propagate] returns the mapping untouched, whatever [y] held: the
    relation has no edge in the relation graph, so Tarjan's pass, which
    walks the keys of that graph, yields no component and the relation is
    never evaluated.  Step A on the component [[0]] would have set [y] to
    3. *)
Theorem isolated_relation_not_evaluated :
  (∀ (np : Numpy) (v : value),
     constraint_graph (constraints (affine_lattice v)) = [] ∧
     propagate (affine_lattice v)
       = Some (Return () (nodes (affine_lattice v))) ∧
     nodes (affine_lattice v) !! "y" = Some v) ∧
  process_scc (np := numpy_ref) (constraints (affine_lattice VNone))
    [0%nat] (nodes (affine_lattice VNone))
  = Some (Return () (<["y" := VNum 3]> (nodes (affine_lattice VNone)))).
Proof.
  split.
  - intros np v. split; [reflexivity|]. split; reflexivity.
  - vm_compute. reflexivity.
Qed.

Lemma opaque_lattice_well_formed : well_formed opaque_lattice.
Proof.
  split.
  - intros k v. simpl. rewrite !lookup_insert, lookup_empty.
    repeat case_decide; by intros [= <-].
  - intros c Hc. simpl in Hc.
    apply elem_of_cons in Hc as [->|Hc];
      [|apply list_elem_of_singleton in Hc as ->]; simpl.
    + split.
      * intros i ->%list_elem_of_singleton. by eexists.
      * intros [|v [|w args]] Hlen; try done. by eexists.
    + split.
      * intros i ->%list_elem_of_singleton. by eexists.
      * intros [|v [|w args]] Hlen; try done. by eexists.
Qed.

(** C2: [opaque_lattice] is well formed (three registered nodes holding
    strings, two total relations that copy their argument), and
    [propagate] raises [ValueError] on it: Step A converts the input [s] of
    the first component with [float], which the string does not survive. *)
Theorem opaque_input_raises :
  well_formed opaque_lattice ∧
  ∀ np : Numpy,
    propagate opaque_lattice = Some (Throw ValueError (nodes opaque_lattice)).
Proof.
  split; [apply opaque_lattice_well_formed|].
  intros np. vm_compute. reflexivity.
Qed.

(** C3, as stated, fails: in [missing_input_lattice] the component
    [[1; 0]] goes to Step B, relation 1 moves [b] from 5 to 3, relation 0
    then raises [KeyError] on [zz], and the caller is left with the moved
    [b]. *)
Lemma partial_update_counterexample :
  _tarjan_scc 2 (constraint_graph (constraints missing_input_lattice))
    = Some (Ok [[1; 0]])%nat ∧
  nodes missing_input_lattice !! "b" = Some (VNum 5) ∧
  ∃ σ',
    propagate (np := numpy_ref) missing_input_lattice
      = Some (Throw (KeyError "zz") σ') ∧
    σ' !! "b" = Some (VNum 3).
Proof.
  split; [reflexivity|]. split; [reflexivity|].
  eexists. split; [vm_compute; reflexivity|]. reflexivity.
Qed.

(** C3, amended: a failure is reported to the caller together with the
    mapping as it stood when the exception was raised.  A relation that
    reads a name the mapping does not have raises [KeyError] and writes
    nothing itself; the pass stops there and keeps what the relations
    before it wrote; a pass that fails ends Step B at once, with no
    rounding; and the components after a failed one are not processed. *)
Theorem failure_keeps_earlier_updates {np : Numpy} (cs : list constraint) :
  (∀ idx c i (σ : gmap string value) changed,
     cs !! idx = Some c → i ∈ inputs c → σ !! i = None →
     ∃ j, j ∈ inputs c ∧ σ !! j = None ∧
          relax_constraint cs idx σ changed = Throw (KeyError j) σ) ∧
  (∀ pre idx post σ0 changed0 changed1 σ1 e σ2,
     relax_pass cs pre σ0 changed0 = Return changed1 σ1 →
     relax_constraint cs idx σ1 changed1 = Throw e σ2 →
     relax_pass cs (pre ++ idx :: post) σ0 changed0 = Throw e σ2) ∧
  (∀ scc σ e σ',
     relax_pass cs scc σ false = Throw e σ' →
     relax cs scc σ = Some (Throw e σ')) ∧
  (∀ before scc after σ0 σ1 e σ2,
     process_sccs cs before σ0 = Some (Return () σ1) →
     process_scc cs scc σ1 = Some (Throw e σ2) →
     process_sccs cs (before ++ scc :: after) σ0 = Some (Throw e σ2)).
Proof.
  repeat split.
  - intros idx c i σ changed Hc Hi Hnone.
    destruct (read_missing σ (inputs c) i Hi Hnone) as (j & Hm & Hj & Hjn).
    exists j. split; [done|]. split; [done|].
    unfold relax_constraint, py_index. rewrite Hc. simpl. by rewrite Hm.
  - intros pre idx post σ0 changed0 changed1 σ1 e σ2 Hpre Hidx.
    rewrite relax_pass_app, Hpre. simpl. by rewrite Hidx.
  - intros scc σ e σ'. apply relax_first_pass_throws.
  - intros before scc after σ0 σ1 e σ2 Hbefore Hscc.
    rewrite process_sccs_app, Hbefore. simpl. by rewrite Hscc.
Qed.

Lemma failure_keeps_earlier_updates_witness :
  relax_pass (constraints missing_input_lattice)
    ([1%nat] ++ 0%nat :: []) (nodes missing_input_lattice) false
  = Throw (KeyError "zz") (<["b" := VNum 3]> (nodes missing_input_lattice)).
Proof.
  apply (proj1 (proj2 (failure_keeps_earlier_updates (np := numpy_ref)
                         (constraints missing_input_lattice)))
           [1%nat] 0%nat [] (nodes missing_input_lattice) false true
           (<["b" := VNum 3]> (nodes missing_input_lattice))).
  - vm_compute. reflexivity.
  - vm_compute. reflexivity.
Defined.

(** C4: [propagate] returns on every lattice, whatever numpy answers, and so
    does the relaxation of every component, which leaves its loop on a
    repeated state, after [iteration_limit] passes or after an unchanged
    pass (or with the exception a relation raised); the two relations
    [a = b + 1] and [b = a - 1] form one component, and from [a = b = 0]
    the call returns the pair [a = 0.333332], [b = -0.666666]. *)
Theorem propagate_terminates :
  (∀ (np : Numpy) (self : ConstraintLattice), ∃ r, propagate self = Some r) ∧
  (∀ cs scc σ, ∃ r, relax cs scc σ = Some r) ∧
  _tarjan_scc 2 (constraint_graph (constraints cycle_lattice))
    = Some (Ok [[1; 0]])%nat ∧
  propagate (np := numpy_ref) cycle_lattice
    = Some (Return () cycle_settled).
Proof.
  split; [|split; [|split]].
  - intros. apply propagate_returns.
  - intros. apply relax_returns.
  - reflexivity.
  - vm_compute. reflexivity.
Qed.

(** C5, as stated, fails: Step A solves both components of
    [chain_lattice], and [x = 0.1234567] is returned with seven places. *)
Lemma rounding_invariant_counterexample :
  ∃ σ',
    propagate (np := numpy_ref) (chain_lattice unrounded)
      = Some (Return () σ') ∧
    ¬ rounded σ'.
Proof.
  eexists. split; [vm_compute; reflexivity|].
  intros Hr. specialize (Hr "x" unrounded eq_refl).
  apply (f_equal Prim2SF) in Hr. vm_compute in Hr. discriminate.
Qed.

(** C5, amended: a component that Step A solves leaves its variables
    holding values rounded to six places and every other node as it was; a
    component that goes through Step B leaves every numeric node of the
    whole mapping rounded to six places. *)
Theorem rounding_after_component {np : Numpy} (cs : list constraint)
    (scc : list nat) (σ σ' : gmap string value) :
  process_scc cs scc σ = Some (Return () σ') →
  ∃ vars rows constants,
    variables cs σ scc = Ok vars ∧
    linearize cs σ vars scc = Ok (rows, constants) ∧
    match solve vars rows constants σ with
    | Some _ =>
        (∀ node, node ∈ vars →
           ∃ x, σ' !! node = Some (VNum (np_round6 x))) ∧
        (∀ node, node ∉ vars → σ' !! node = σ !! node)
    | None => ∀ k x, σ' !! k = Some (VNum x) → ∃ y, x = py_round6 y
    end.
Proof.
  unfold process_scc.
  destruct (variables cs σ scc) as [vars|e] eqn:Hvars; [simpl|done].
  destruct (linearize cs σ vars scc) as [[rows constants]|e] eqn:Hlin;
    [simpl|done].
  intros Hrun. exists vars, rows, constants. split; [done|]. split; [done|].
  destruct (solve vars rows constants σ) as [r|] eqn:Hsolve.
  - injection Hrun as ->.
    unfold solve in Hsolve. destruct rows as [|row rows']; [done|].
    destruct (matrix_rank _) as [rk|] eqn:Hrank; [|done].
    destruct (rk =? length vars)%nat eqn:Hrk; [|done].
    apply Nat.eqb_eq in Hrk as ->.
    destruct (lstsq _ _) as [solution|] eqn:Hsol; [|done].
    destruct (solve_accepted vars (row :: rows') constants solution σ)
      as (σ'' & Hsolve' & Hin & Hout); try done.
    + by eapply NoDup_variables.
    + by eapply linearize_width.
    + unfold solve in Hsolve'.
      rewrite Hrank, Nat.eqb_refl, Hsol, Hsolve in Hsolve'.
      injection Hsolve' as <-. split; [|done].
      intros node Hnode. apply list_elem_of_lookup in Hnode as [idx Hidx].
      destruct (Hin idx node Hidx) as (x & _ & Hx). by exists x.
  - by eapply relax_rounds.
Qed.

Lemma rounding_after_component_witness :
  process_scc (np := numpy_ref) (constraints cycle_lattice) [1; 0]%nat
    (nodes cycle_lattice) = Some (Return () cycle_settled) ∧
  ∃ y, nearest_ratio false 333332 1000000 = py_round6 y.
Proof.
  split; [vm_compute; reflexivity|].
  destruct (rounding_after_component (np := numpy_ref)
              (constraints cycle_lattice) [1; 0]%nat (nodes cycle_lattice)
              cycle_settled ltac:(vm_compute; reflexivity))
    as (vars & rows & constants & Hvars & Hlin & Hrounded).
  assert (vars = ["a"; "b"]) as ->.
  { vm_compute in Hvars. by injection Hvars. }
  assert (rows = [[-1; 1]; [1; -1]]%float ∧ constants = [-1; 1]%float)
    as [-> ->].
  { vm_compute in Hlin. by injection Hlin. }
  assert (solve (np := numpy_ref) ["a"; "b"] [[-1; 1]; [1; -1]]%float
            [-1; 1]%float (nodes cycle_lattice) = None) as Hsolve
    by (vm_compute; reflexivity).
  rewrite Hsolve in Hrounded.
  exact (Hrounded "a" (nearest_ratio false 333332 1000000) eq_refl).
Defined.

(** C6, as stated, fails: the component of [a = b + 1] (relation 0) and
    [b = a - 1] (relation 1) is the list [[1; 0]], so every pass evaluates
    relation 1 first; registration order would settle on other values. *)
Lemma registration_order_counterexample :
  _tarjan_scc 2 (constraint_graph (constraints cycle_lattice))
    = Some (Ok [[1; 0]])%nat ∧
  ¬ registration_order [1; 0]%nat ∧
  relax (constraints cycle_lattice) [1; 0]%nat (nodes cycle_lattice)
    = Some (Return () cycle_settled) ∧
  relax (constraints cycle_lattice) [0; 1]%nat (nodes cycle_lattice)
    = Some (Return ()
        (<["a" := VNum (nearest_ratio false 666666 1000000)]>
           (<["b" := VNum (nearest_ratio true 333332 1000000)]> ∅))).
Proof.
  split; [reflexivity|]. split.
  - intros Hs. apply StronglySorted_inv in Hs as [_ Hlt].
    apply Forall_cons in Hlt as [Hlt _]. lia.
  - split; vm_compute; reflexivity.
Qed.

(** C6, amended: a component lists its relations in the order Tarjan's
    pass popped them off its stack, the latest discovered first, and a
    relaxation pass evaluates them in the order of that list, front to
    back. *)
Theorem component_in_pop_order (fuel : nat) (graph : list (nat * list nat))
    (st : tarjan_state) :
  tarjan_run fuel graph = Some (Ok st) →
  _tarjan_scc fuel graph = Some (Ok (sccs st)) ∧
  (∀ scc, scc ∈ sccs st →
     StronglySorted (discovered_later (indices st)) scc) ∧
  (∀ cs pre post σ changed,
     relax_pass cs (pre ++ post) σ changed =
     match relax_pass cs pre σ changed with
     | Return changed' σ' => relax_pass cs post σ' changed'
     | Throw e σ' => Throw e σ'
     end).
Proof.
  intros Hrun. split; [|split].
  - unfold _tarjan_scc. by rewrite Hrun.
  - apply sccs_ordered. unfold tarjan_run in Hrun.
    eapply pop_ordered_roots; [apply pop_ordered_init|done].
  - intros. apply relax_pass_app.
Qed.

Lemma component_in_pop_order_witness :
  tarjan_run 2 (constraint_graph (constraints cycle_lattice))
    = Some (Ok cycle_tarjan_state) ∧
  StronglySorted (discovered_later (indices cycle_tarjan_state)) [1; 0]%nat.
Proof.
  assert (tarjan_run 2 (constraint_graph (constraints cycle_lattice))
          = Some (Ok cycle_tarjan_state)) as Hrun
    by (vm_compute; reflexivity).
  split; [exact Hrun|].
  apply (proj1 (proj2 (component_in_pop_order 2
           (constraint_graph (constraints cycle_lattice))
           cycle_tarjan_state Hrun))).
  left.
Defined.

(** C7: with the linear system of a component in hand, Step A accepts
    exactly when numpy reports a rank equal to the number of variables and
    solves the system: each variable then holds its solved value rounded to
    six places, no other node is touched and Step B does not run; in every
    other case the component is handed to Step B as it is. *)
Theorem step_a_accepts_iff_full_rank {np : Numpy} (cs : list constraint)
    (scc : list nat) (σ : gmap string value) (vars : list string)
    (rows : list (list float)) (constants : list float) :
  variables cs σ scc = Ok vars →
  linearize cs σ vars scc = Ok (rows, constants) →
  rows ≠ [] →
  (∀ solution,
     matrix_rank rows = Some (length vars) →
     lstsq rows constants = Some solution →
     ∃ σ', process_scc cs scc σ = Some (Return () σ') ∧
       (∀ idx node, vars !! idx = Some node →
          ∃ x, solution !! idx = Some x ∧
               σ' !! node = Some (VNum (np_round6 x))) ∧
       (∀ node, node ∉ vars → σ' !! node = σ !! node)) ∧
  (matrix_rank rows ≠ Some (length vars) ∨ lstsq rows constants = None →
   process_scc cs scc σ = relax cs scc σ).
Proof.
  intros Hvars Hlin Hrows. split.
  - intros solution Hrank Hsol.
    destruct (solve_accepted vars rows constants solution σ)
      as (σ' & Hsolve & Hin & Hout); try done.
    + by eapply NoDup_variables.
    + by eapply linearize_width.
    + exists σ'. split; [|done].
      unfold process_scc. rewrite Hvars. simpl. rewrite Hlin. simpl.
      by rewrite Hsolve.
  - intros Hno. apply process_scc_unsolved. exists vars, rows, constants.
    split; [done|]. split; [done|]. unfold solve.
    destruct rows as [|row rows']; [done|].
    destruct (matrix_rank _) as [r|] eqn:Hrank; [|done].
    destruct (r =? length vars)%nat eqn:Hr; [|done].
    apply Nat.eqb_eq in Hr as ->.
    destruct Hno as [Hno|Hno]; [done|]. by rewrite Hno.
Qed.

Lemma step_a_accepts_iff_full_rank_witness :
  ∃ σ',
    process_scc (np := numpy_ref) (constraints (chain_lattice 0)) [0%nat]
      (nodes (chain_lattice 0)) = Some (Return () σ') ∧
    σ' !! "y" = Some (VNum 3) ∧ σ' !! "x" = Some (VNum 0).
Proof.
  destruct (proj1 (step_a_accepts_iff_full_rank (np := numpy_ref)
                     (constraints (chain_lattice 0)) [0%nat]
                     (nodes (chain_lattice 0)) ["y"] [[1%float]] [3%float]
                     eq_refl eq_refl ltac:(done))
                  [3%float] eq_refl eq_refl)
    as (σ' & Hrun & Hin & Hout).
  exists σ'. split; [exact Hrun|]. split.
  - destruct (Hin 0%nat "y" eq_refl) as (x & Hx & Hy).
    injection Hx as <-. exact Hy.
  - rewrite Hout; [reflexivity|].
    intros Hx. apply list_elem_of_singleton in Hx. discriminate.
Defined.

(** C8: when the stored and the new value of an output are both numbers,
    Step B computes [updated = old + 0.5 * (new - old)]; within the
    tolerance it leaves the mapping and the flag as they are, and otherwise
    it stores [updated] and raises the flag. *)
Theorem relax_output_damped (σ : gmap string value) (changed : bool)
    (output_id : string) (old new : float) :
  σ !! output_id = Some (VNum old) →
  relax_output σ changed output_id (VNum new) =
    let updated := (old + 0.5 * (new - old))%float in
    if (abs (updated - old) <=? tolerance)%float then (σ, changed)
    else (<[output_id := VNum updated]> σ, true).
Proof.
  intros Hold. unfold relax_output. rewrite Hold. simpl.
  destruct (abs _ <=? tolerance)%float eqn:Htol; [done|].
  destruct (PrimFloat.eqb _ old) eqn:Heq; [|done].
  apply damped_equal_within in Heq. congruence.
Qed.

Lemma relax_output_damped_witness :
  relax_output {["x" := VNum 0]} false "x" (VNum 1)
  = (<["x" := VNum 0.5]> {["x" := VNum 0]}, true).
Proof.
  exact (relax_output_damped {["x" := VNum 0]} false "x" 0 1 eq_refl).
Defined.

(** C9, as stated, fails: [x = x + 1] never converges, the first call
    stops at the iteration limit with [x = 500], and a second call on that
    mapping moves [x] by another 500. *)
Lemma second_call_counterexample :
  propagate (np := numpy_ref) (counter_lattice 0)
    = Some (Return () {["x" := VNum 500]}) ∧
  propagate (np := numpy_ref)
    (with_nodes {["x" := VNum 500]} (counter_lattice 0))
    = Some (Return () {["x" := VNum 1000]}) ∧
  (abs (1000 - 500) <=? tolerance)%float = false.
Proof.
  split; [vm_compute; reflexivity|].
  split; [vm_compute; reflexivity|]. reflexivity.
Qed.

(** C9, amended: [propagate] returns the mapping it was given, every node
    unchanged, when that mapping is a fixed point: it is already rounded
    and, in every component, Step A does not solve and one relaxation pass
    changes nothing. *)
Theorem fixed_point_unchanged {np : Numpy} (self : ConstraintLattice)
    (l : list (list nat)) :
  _tarjan_scc (length (constraints self)) (constraint_graph (constraints self))
    = Some (Ok l) →
  round_nodes (nodes self) = nodes self →
  (∀ scc, scc ∈ l →
     step_a_unsolved (constraints self) (nodes self) scc ∧
     relax_pass (constraints self) scc (nodes self) false
       = Return false (nodes self)) →
  propagate self = Some (Return () (nodes self)).
Proof.
  intros Hl Hround Hquiet. unfold propagate. rewrite Hl.
  assert (∀ scc, scc ∈ reverse l →
            process_scc (constraints self) scc (nodes self)
            = Some (Return () (nodes self))) as Hscc.
  { intros scc Hin. apply elem_of_reverse, Hquiet in Hin as [Hun Hpass].
    rewrite (process_scc_unsolved _ _ _ Hun).
    rewrite (relax_first_pass_unchanged _ _ _ _ Hpass). by rewrite Hround. }
  induction (reverse l) as [|scc l' IH]; simpl; [done|].
  rewrite Hscc by left. apply IH. intros scc' Hin. apply Hscc. by right.
Qed.

Lemma fixed_point_unchanged_witness :
  propagate (np := numpy_ref) mirror_lattice
  = Some (Return () (nodes mirror_lattice)).
Proof.
  apply (fixed_point_unchanged (np := numpy_ref) mirror_lattice [[1; 0]]%nat).
  - reflexivity.
  - vm_compute. reflexivity.
  - intros scc Hin. apply list_elem_of_singleton in Hin as ->. split.
    + exists ["a"; "b"], [[-1; 1]; [1; -1]]%float, [0; 0]%float.
      split; [vm_compute; reflexivity|].
      split; vm_compute; reflexivity.
    + vm_compute. reflexivity.
Defined.

(** C10: Step B writes a value other than [None] under an output name the
    mapping does not have; the variables of Step A are exactly the outputs
    of the component's relations that the mapping has; and after
    [propagate] on [unregistered_lattice] the mapping has the entries [u]
    and [w], which nobody registered. *)
Theorem unregistered_output_written :
  (∀ (σ : gmap string value) changed output_id new_val,
     σ !! output_id = None → new_val ≠ VNone →
     relax_output σ changed output_id new_val
     = (<[output_id := new_val]> σ, true)) ∧
  (∀ cs (σ : gmap string value) scc vars node,
     variables cs σ scc = Ok vars →
     node ∈ vars ↔
       is_Some (σ !! node) ∧
       ∃ idx c, idx ∈ scc ∧ cs !! idx = Some c ∧ node ∈ outputs c) ∧
  (nodes unregistered_lattice !! "u" = None ∧
   nodes unregistered_lattice !! "w" = None ∧
   ∃ σ', propagate (np := numpy_ref) unregistered_lattice
           = Some (Return () σ') ∧
         σ' !! "u" = Some (VNum 2) ∧ σ' !! "w" = Some (VNum 3)).
Proof.
  split; [|split].
  - intros σ changed output_id new_val Hnone Hnew.
    unfold relax_output. rewrite Hnone. simpl. by destruct new_val.
  - intros. by apply elem_of_variables.
  - split; [done|]. split; [done|].
    eexists. split; [vm_compute; reflexivity|]. done.
Qed.

Lemma unregistered_output_written_witness :
  relax_output (∅ : gmap string value) false "u" (VNum 2)
  = (<["u" := VNum 2]> ∅, true).
Proof.
  apply (proj1 unregistered_output_written ∅ false "u" (VNum 2)).
  - reflexivity.
  - discriminate.
Defined.


(** * Further properties *)

Local Close Scope Z_scope.

(** X1: after the first loop of [propagate], the set stored under a name
    holds exactly the indices of the relations that declare the name as an
    input; a name no relation reads has the empty set. *)
Theorem dep_graph_lists_readers (cs : list constraint) (name : string)
    (idx : nat) :
  idx ∈ dependents (dep_graph cs) name ↔
  ∃ c, cs !! idx = Some c ∧ name ∈ inputs c.
Proof. apply elem_of_dep_graph. Qed.

(** X2: the relation graph has an edge from relation [i] to relation [j]
    exactly when some output name of [i] is an input name of [j]. *)
Theorem constraint_graph_edges (cs : list constraint) (i j : nat) :
  j ∈ graph_get (constraint_graph cs) i ↔ feeds cs i j.
Proof. apply elem_of_constraint_graph. Qed.

(** X3: the keys of the relation graph, in their iteration order, are the
    ascending indices of the relations that have at least one outgoing
    edge; a relation whose outputs nobody reads is no key, even when it
    reads the output of another relation. *)
Theorem constraint_graph_keys_ascending (cs : list constraint) :
  StronglySorted lt (constraint_graph cs).*1 ∧
  ∀ k, k ∈ (constraint_graph cs).*1 ↔ ∃ j, feeds cs k j.
Proof.
  split; [apply constraint_graph_keys|]. apply constraint_graph_key_feeds.
Qed.


(** X5: the components [_tarjan_scc] returns partition the nodes of the
    graph: no component is empty, no node occurs twice, in one component or
    in two, and a node is in some component exactly when it is a key of the
    graph or a neighbour of one. *)
Theorem tarjan_scc_partition (fuel : nat) (graph : list (nat * list nat))
    (l : list (list nat)) :
  _tarjan_scc fuel graph = Some (Ok l) →
  NoDup (mjoin l) ∧ (∀ scc, scc ∈ l → scc ≠ []) ∧
  ∀ k, k ∈ mjoin l ↔ graph_node graph k.
Proof.
  intros Hrun.
  destruct (tarjan_scc_inv fuel graph l Hrun) as (st & -> & Hinv & Hs & Hmem).
  split; [|split; [|done]].
  - pose proof (ti_nodup graph st Hinv) as Hnd. by rewrite Hs in Hnd.
  - apply (ti_nonempty graph st Hinv).
Qed.

Lemma tarjan_scc_partition_witness :
  NoDup (mjoin [[1; 0]]%nat) ∧ graph_node [(0, [1]); (1, [0])]%nat 1%nat.
Proof.
  destruct (tarjan_scc_partition 2 [(0, [1]); (1, [0])]%nat [[1; 0]]%nat
              eq_refl) as (Hnd & _ & Hmem).
  split; [exact Hnd|]. apply Hmem. left.
Defined.

(** X6: a component is a strongly connected component of the graph: for a
    member [x], the members are exactly the nodes that can be reached from
    [x] and from which [x] can be reached. *)
Theorem tarjan_scc_strongly_connected (fuel : nat)
    (graph : list (nat * list nat)) (l : list (list nat)) (scc : list nat)
    (x y : nat) :
  _tarjan_scc fuel graph = Some (Ok l) → scc ∈ l → x ∈ scc →
  y ∈ scc ↔ reaches graph x y ∧ reaches graph y x.
Proof. apply component_members. Qed.

Lemma tarjan_scc_strongly_connected_witness :
  reaches [(0, [1]); (1, [0])]%nat 1%nat 0%nat ∧
  reaches [(0, [1]); (1, [0])]%nat 0%nat 1%nat.
Proof.
  apply (tarjan_scc_strongly_connected 2 [(0, [1]); (1, [0])]%nat
           [[1; 0]]%nat [1; 0]%nat 1%nat 0%nat eq_refl).
  - left.
  - left.
  - right. left.
Defined.

(** X7: [propagate] walks the components in the reverse of the order in
    which [_tarjan_scc] emitted them, and in that order every edge of the
    graph leads to the same or to a later component: the relations that
    write a name come no later than the relations that read it. *)
Theorem components_in_dependency_order (fuel : nat)
    (graph : list (nat * list nat)) (l : list (list nat)) (a : nat)
    (scc : list nat) (v w : nat) :
  _tarjan_scc fuel graph = Some (Ok l) →
  reverse l !! a = Some scc → v ∈ scc → w ∈ graph_get graph v →
  ∃ b scc', (a ≤ b)%nat ∧ reverse l !! b = Some scc' ∧ w ∈ scc'.
Proof. apply component_order. Qed.

Lemma components_in_dependency_order_witness :
  _tarjan_scc 2 (constraint_graph (constraints (chain_lattice 0)))
    = Some (Ok [[1]; [0]]%nat) ∧
  ∃ b scc', (0 ≤ b)%nat ∧ reverse [[1]; [0]]%nat !! b = Some scc' ∧
            1%nat ∈ scc'.
Proof.
  split; [reflexivity|].
  apply (components_in_dependency_order 2
           (constraint_graph (constraints (chain_lattice 0)))
           [[1]; [0]]%nat 0%nat [0%nat] 0%nat 1%nat eq_refl eq_refl).
  - left.
  - left.
Defined.

(** X8: on the graph [propagate] builds, [_tarjan_scc] returns components
    that hold valid relation indices, and a relation belongs to a component
    exactly when it shares a name with some relation, as the writer or as
    the reader; every other relation is in no component. *)
Theorem components_cover_connected_relations (cs : list constraint) :
  ∃ l, _tarjan_scc (length cs) (constraint_graph cs) = Some (Ok l) ∧
    (∀ k, k ∈ mjoin l ↔ ∃ j, feeds cs k j ∨ feeds cs j k) ∧
    (∀ scc k, scc ∈ l → k ∈ scc → is_Some (cs !! k)).
Proof.
  destruct (tarjan_scc_constraint_graph cs) as [l Hl].
  destruct (tarjan_scc_inv _ _ _ Hl) as (st & _ & _ & _ & Hmem).
  exists l. split; [done|].
  assert (∀ k, k ∈ mjoin l ↔ ∃ j, feeds cs k j ∨ feeds cs j k) as Hk.
  { intros k. rewrite Hmem. apply graph_node_feeds. }
  split; [done|]. intros scc k Hscc Hin.
  assert (k ∈ mjoin l) as [j Hj]%Hk by (apply list_elem_of_join; eauto).
  apply lookup_lt_is_Some.
  destruct Hj as [[? ?]%feeds_lt|[? ?]%feeds_lt]; done.
Qed.

(** X9: when no output name of any relation is an input name of any
    relation, [propagate] evaluates nothing and returns the mapping as it
    was. *)
Theorem propagate_without_edges {np : Numpy} (self : ConstraintLattice) :
  (∀ i j, ¬ feeds (constraints self) i j) →
  propagate self = Some (Return () (nodes self)).
Proof.
  intros Hno. by apply propagate_no_edges, constraint_graph_nil_feeds.
Qed.

Lemma propagate_without_edges_witness :
  propagate (np := numpy_ref) (affine_lattice VNone)
  = Some (Return () (nodes (affine_lattice VNone))).
Proof.
  apply (propagate_without_edges (np := numpy_ref) (affine_lattice VNone)).
  apply constraint_graph_nil_feeds. reflexivity.
Defined.

(** X10: [propagate] removes no node: a name the mapping had before the
    call is still there after it, whether the call returned or raised. *)
Theorem propagate_keeps_nodes {np : Numpy} (self : ConstraintLattice)
    (r : run unit) (k : string) :
  propagate self = Some r →
  is_Some (nodes self !! k) → is_Some (final_nodes r !! k).
Proof. intros Hr. apply (propagate_within self r Hr). Qed.

Lemma propagate_keeps_nodes_witness :
  is_Some (cycle_settled !! "a").
Proof.
  apply (propagate_keeps_nodes (np := numpy_ref) cycle_lattice
           (Return () cycle_settled) "a").
  - vm_compute. reflexivity.
  - vm_compute. eexists. reflexivity.
Defined.

(** X11: [propagate] writes under output names only.  A name that no
    relation declares as an output is not created; if it holds [None] or
    an opaque value it keeps it; if it holds a number it holds that number
    passed zero or more times through the six-place rounding of Step B. *)
Theorem propagate_writes_outputs_only {np : Numpy} (self : ConstraintLattice)
    (r : run unit) (k : string) :
  propagate self = Some r →
  k ∉ all_outputs (constraints self) →
  (∃ n, final_nodes r !! k = Nat.iter n round_value <$> nodes self !! k) ∧
  (nodes self !! k = None → final_nodes r !! k = None) ∧
  (∀ v, nodes self !! k = Some v → is_number v = false →
        final_nodes r !! k = Some v).
Proof.
  intros Hr Hk.
  destruct (proj2 (propagate_within self r Hr) k Hk) as [n Hn].
  split; [by exists n|]. rewrite Hn. split.
  - by intros ->.
  - intros v -> Hv. simpl. by rewrite iter_round_opaque.
Qed.

Lemma propagate_writes_outputs_only_witness :
  ∃ n, ({["x" := VNum 0; "y" := VNum 3; "z" := VNum 4]}
          : gmap string value) !! "x"
       = Nat.iter n round_value <$> nodes (chain_lattice 0) !! "x".
Proof.
  refine (proj1 (propagate_writes_outputs_only (np := numpy_ref)
                   (chain_lattice 0)
                   (Return () {["x" := VNum 0; "y" := VNum 3; "z" := VNum 4]})
                   "x" _ _)).
  - vm_compute. reflexivity.
  - intros [Hx|[Hx|Hx%elem_of_nil]%elem_of_cons]%elem_of_cons;
      [discriminate..|done].
Defined.

(** X12: Step A reads an input name the mapping does not have as 0.0: the
    linear system is the one built from the mapping with the name
    registered at 0.0. *)
Theorem linearize_missing_input_is_zero (cs : list constraint)
    (σ : gmap string value) (i : string) (vars : list string)
    (scc : list nat) :
  σ !! i = None →
  linearize cs (<[i := VNum 0]> σ) vars scc = linearize cs σ vars scc.
Proof. apply linearize_default_zero. Qed.

Lemma linearize_missing_input_is_zero_witness :
  linearize (constraints missing_input_lattice)
    (<["zz" := VNum 0]> (nodes missing_input_lattice)) ["a"; "b"]
    [1; 0]%nat
  = linearize (constraints missing_input_lattice)
      (nodes missing_input_lattice) ["a"; "b"] [1; 0]%nat.
Proof.
  apply (linearize_missing_input_is_zero (constraints missing_input_lattice)
           (nodes missing_input_lattice) "zz" ["a"; "b"] [1; 0]%nat).
  reflexivity.
Defined.

(** X13: the linear system of Step A has one constant per row, one
    coefficient per variable in every row, and one row for every output
    of every relation of the component that is a variable, counted with
    repetition. *)
Theorem linear_system_shape (cs : list constraint) (σ : gmap string value)
    (vars : list string) (scc : list nat) (rows : list (list float))
    (constants : list float) :
  linearize cs σ vars scc = Ok (rows, constants) →
  length rows = length constants ∧
  (∀ row, row ∈ rows → length row = length vars) ∧
  length rows =
    sum_list ((λ idx, from_option (equations_of vars) 0%nat (cs !! idx))
                <$> scc).
Proof.
  intros Hlin. destruct (linearize_shape _ _ _ _ _ _ Hlin) as [Hlen Hsum].
  split; [done|]. split; [|done]. apply (linearize_width _ _ _ _ _ Hlin).
Qed.

Lemma linear_system_shape_witness :
  length [[-1; 1]; [1; -1]]%float = length [-1; 1]%float.
Proof.
  apply (linear_system_shape (constraints cycle_lattice) (nodes cycle_lattice)
           ["a"; "b"] [1; 0]%nat [[-1; 1]; [1; -1]]%float [-1; 1]%float).
  vm_compute. reflexivity.
Defined.

(** X14: an output whose relation reads no variable contributes the
    equation [output = value]: the row is the unit row of the output's
    column, the constant is the value the relation returned for the
    current inputs, and the relation is not evaluated a second time. *)
Theorem equation_without_variable_input (c : constraint) (vars : list string)
    (baseline : list float) (base_output : list value)
    (sys : list (list float) * list float) (out_pos : nat)
    (output_id : string) (col : nat) (bo : value) (constant : float) :
  (∀ i, i ∈ inputs c → i ∉ vars) →
  index_of output_id vars = Some col →
  base_output !! out_pos = Some bo →
  py_float bo = Ok constant →
  linearize_output c vars baseline base_output sys (out_pos, output_id)
  = Ok (sys.1 ++ [<[col := 1%float]> (replicate (length vars) 0%float)],
        sys.2 ++ [constant]).
Proof. apply linearize_output_constant. Qed.

Lemma equation_without_variable_input_witness :
  linearize_output (Constraint (affine 2 3) ["x"] ["y"]) ["y"] [0%float]
    [VNum 3] ([], []) (0%nat, "y")
  = Ok ([[1%float]], [3%float]).
Proof.
  apply (equation_without_variable_input (Constraint (affine 2 3) ["x"] ["y"])
           ["y"] [0%float] [VNum 3] ([], []) 0%nat "y" 0%nat (VNum 3) 3%float).
  - intros i ->%list_elem_of_singleton Hin%list_elem_of_singleton.
    discriminate.
  - reflexivity.
  - reflexivity.
  - reflexivity.
Defined.

(** X15: in Step B a relation that returns at least as many values as it
    has outputs is stored without an exception, the surplus values being
    ignored; one that returns fewer raises [IndexError], and no other
    exception comes from storing the outputs. *)
Theorem relax_outputs_index_error (outs : list string) (vals : list value)
    (σ : gmap string value) (changed : bool) :
  match relax_outputs (enumerate outs) vals σ changed with
  | Return _ _ => (length outs ≤ length vals)%nat
  | Throw e _ => e = IndexError ∧ (length vals < length outs)%nat
  end.
Proof.
  pose proof (relax_outputs_arity (enumerate outs) vals σ changed) as Har.
  destruct (relax_outputs _ _ _ _) as [c σ'|e σ'].
  - by apply enumerate_bounded.
  - destruct Har as (-> & j & o & Hin%elem_of_enumerate & Hle).
    apply lookup_lt_Some in Hin. split; [done|lia].
Qed.

(** X16: a pass of Step B that ends with the flag down has written
    nothing: the mapping is the one the pass started from. *)
Theorem unflagged_pass_writes_nothing (cs : list constraint) (scc : list nat)
    (σ σ' : gmap string value) (changed : bool) :
  relax_pass cs scc σ changed = Return false σ' → σ' = σ ∧ changed = false.
Proof. apply relax_pass_flag. Qed.

Lemma unflagged_pass_writes_nothing_witness :
  nodes mirror_lattice = nodes mirror_lattice ∧ false = false.
Proof.
  apply (unflagged_pass_writes_nothing (constraints mirror_lattice)
           [1; 0]%nat (nodes mirror_lattice) (nodes mirror_lattice) false).
  vm_compute. reflexivity.
Defined.

(** X17: a new value that is no number is stored undamped, whatever the
    output held, and storing it once more changes neither the mapping nor
    the flag. *)
Theorem opaque_output_settles (σ : gmap string value) (changed : bool)
    (output_id : string) (new_val : value) :
  is_number new_val = false →
  let σ1 := (relax_output σ changed output_id new_val).1 in
  default VNone (σ1 !! output_id) = new_val ∧
  ∀ changed', relax_output σ1 changed' output_id new_val = (σ1, changed').
Proof. apply relax_output_opaque. Qed.

Lemma opaque_output_settles_witness :
  default VNone
    ((relax_output {["s" := VNum 1]} false "s" (VStr "on")).1 !! "s")
  = VStr "on".
Proof.
  apply (opaque_output_settles {["s" := VNum 1]} false "s" (VStr "on")).
  reflexivity.
Defined.

(** X18: Step B raises nothing when the relations of the component exist,
    read registered names only and return at least one value per output
    for every argument list of the right length: it returns, after the
    rounding. *)
Theorem relax_never_raises_when_safe (cs : list constraint) (scc : list nat)
    (σ : gmap string value) :
  step_b_safe cs scc σ → ∃ σ', relax cs scc σ = Some (Return () σ').
Proof. apply relax_safe. Qed.

Lemma relax_never_raises_when_safe_witness :
  ∃ σ', relax (constraints mirror_lattice) [1; 0]%nat (nodes mirror_lattice)
        = Some (Return () σ').
Proof.
  apply (relax_never_raises_when_safe (constraints mirror_lattice) [1; 0]%nat
           (nodes mirror_lattice)).
  intros idx Hidx.
  assert (idx = 1 ∨ idx = 0)%nat as [-> | ->].
  { apply elem_of_cons in Hidx as [->|Hidx]; [by left|].
    apply list_elem_of_singleton in Hidx as ->. by right. }
  - eexists. split; [reflexivity|]. split.
    + intros i ->%list_elem_of_singleton. by eexists.
    + intros [|v [|w args]] Hlen; try discriminate Hlen.
      eexists. split; [reflexivity|]. simpl. lia.
  - eexists. split; [reflexivity|]. split.
    + intros i ->%list_elem_of_singleton. by eexists.
    + intros [|v [|w args]] Hlen; try discriminate Hlen.
      eexists. split; [reflexivity|]. simpl. lia.
Defined.

(** X19: registering one more relation keeps the index of every earlier
    relation and the edges between them; the new relation, whose index is
    the number of relations registered before, gets an edge to every
    relation that reads one of its outputs and from every relation that
    writes one of its inputs. *)
Theorem add_constraint_extends_graph (self : ConstraintLattice)
    (constraint_func : list value → result retval) (ins outs : list string)
    (i j : nat) :
  let cs := constraints self in
  let cs' := constraints (add_constraint constraint_func ins outs self) in
  (i < length cs)%nat → (j < length cs)%nat →
  cs' !! i = cs !! i ∧
  (j ∈ graph_get (constraint_graph cs') i ↔
   j ∈ graph_get (constraint_graph cs) i) ∧
  (j ∈ graph_get (constraint_graph cs') (length cs) ↔
   ∃ name, name ∈ outs ∧ ∃ cj, cs !! j = Some cj ∧ name ∈ inputs cj) ∧
  (length cs ∈ graph_get (constraint_graph cs') i ↔
   ∃ name, name ∈ ins ∧ ∃ ci, cs !! i = Some ci ∧ name ∈ outputs ci).
Proof.
  simpl. intros Hi Hj.
  set (c := {| func := constraint_func; inputs := ins; outputs := outs |}).
  split; [by apply lookup_app_l|]. split; [by apply constraint_graph_snoc|].
  split.
  - rewrite (proj1 (constraint_graph_last (constraints self) c j)).
    rewrite lookup_app_l by done. simpl. split.
    + intros (cj & name & Hcj & Ho & Hin). exists name. split; [done|].
      by exists cj.
    + intros (name & Ho & cj & Hcj & Hin). by exists cj, name.
  - rewrite (proj2 (constraint_graph_last (constraints self) c i)).
    rewrite lookup_app_l by done. simpl. split.
    + intros (ci & name & Hci & Ho & Hin). exists name. split; [done|].
      by exists ci.
    + intros (name & Hin & ci & Hci & Ho). by exists ci, name.
Qed.

Lemma add_constraint_extends_graph_witness :
  1%nat ∈ graph_get
    (constraint_graph
       (constraints (add_constraint (shift 1) ["a"] ["c"] cycle_lattice)))
    0%nat ↔
  1%nat ∈ graph_get (constraint_graph (constraints cycle_lattice)) 0%nat.
Proof.
  refine (proj1 (proj2 (add_constraint_extends_graph cycle_lattice (shift 1)
                          ["a"] ["c"] 0%nat 1%nat _ _))).
  - simpl. lia.
  - simpl. lia.
Defined.

(** X20: [var_index] is the inverse of the sorted list of variables: a
    name is mapped to a position exactly when the list holds the name at
    that position, and the names it maps are the variables. *)
Theorem var_index_inverts_variables (cs : list constraint)
    (σ : gmap string value) (scc : list nat) (vars : list string)
    (node : string) (pos : nat) :
  variables cs σ scc = Ok vars →
  (index_of node vars = Some pos ↔ vars !! pos = Some node) ∧
  (is_Some (index_of node vars) ↔ node ∈ vars).
Proof.
  intros Hvars. split; [|apply index_of_Some]. split.
  - apply index_of_lookup.
  - apply lookup_index_of. by eapply NoDup_variables.
Qed.

Lemma var_index_inverts_variables_witness :
  index_of "b" ["a"; "b"] = Some 1%nat ↔ ["a"; "b"] !! 1%nat = Some "b".
Proof.
  apply (var_index_inverts_variables (constraints cycle_lattice)
           (nodes cycle_lattice) [1; 0]%nat ["a"; "b"] "b" 1%nat).
  vm_compute. reflexivity.
Defined.

(** X21: when none of the outputs of a component's relations is a
    registered node, the component has no variable, Step A evaluates no
    relation and the component goes to Step B as it is. *)
Theorem component_without_variables {np : Numpy} (cs : list constraint)
    (σ : gmap string value) (scc : list nat) :
  (∀ idx, idx ∈ scc → is_Some (cs !! idx)) →
  (∀ idx c o, idx ∈ scc → cs !! idx = Some c → o ∈ outputs c →
     σ !! o = None) →
  variables cs σ scc = Ok [] ∧
  linearize cs σ [] scc = Ok ([], []) ∧
  process_scc cs scc σ = relax cs scc σ.
Proof.
  intros Hvalid Hnone.
  destruct (process_scc_no_variables cs σ scc Hvalid Hnone) as [Hvars Hrun].
  done.
Qed.

Lemma component_without_variables_witness :
  process_scc (np := numpy_ref) (constraints unregistered_lattice) [1%nat]
    (nodes unregistered_lattice)
  = relax (constraints unregistered_lattice) [1%nat]
      (nodes unregistered_lattice).
Proof.
  refine (proj2 (proj2 (component_without_variables (np := numpy_ref)
                          (constraints unregistered_lattice)
                          (nodes unregistered_lattice) [1%nat] _ _))).
  - intros idx ->%list_elem_of_singleton. by eexists.
  - intros idx c o ->%list_elem_of_singleton [= <-] ->%list_elem_of_singleton.
    reflexivity.
Defined.

